(** * RSN file-carving engine (core/file_carving.cpp)

    A shallow embedding of [rsn::core::FileCarvingEngine]: the signature
    catalogue, the registry operations, the statistics, the placeholder
    [CarveFiles] and the two byte-matching helpers [MatchesSignature] and
    [FindFooter], followed by the properties established about them.

    Conventions of the embedding:
    - [uint8_t] is a [Z] in [0, 256); [size_t] and [uint64_t] are a [Z] in
      [0, 2^64) (an LP64 target), and every [size_t] operation that can leave
      that range is written with [wrap];
    - [std::string] is [string], [std::vector<uint8_t>] is [list Z];
    - the engine object is the record [FileCarvingEngine]; a member function
      takes the engine and returns the engine it leaves behind;
    - a [const uint8_t*] is an offset into the bytes of the object it points
      into; an access that leaves this object is the result [Fault]. *)

From Stdlib Require Import ZArith Lia List String.
From Stdlib.Floats Require Import SpecFloat.
From stdpp Require Import gmap strings list fin_maps.
From Equations Require Import Equations.

Local Open Scope string_scope.
Local Open Scope Z_scope.

(** ** Machine integers *)

Definition SIZE_BITS : Z := 64.

(** Arithmetic of [size_t] and [uint64_t] is modulo [2^64]. *)
Definition wrap (x : Z) : Z := x mod 2 ^ SIZE_BITS.

(** [v.size()] of a vector, as a [size_t]. *)
Definition vsize (v : list Z) : Z := Z.of_nat (length v).

(** ** Data model *)

(** Modelled from the spec: the declaration of [struct FileSignature] is in
    core/file_carving.h, which is not part of the sources at hand. The fields
    and their order are those of the aggregate initialisers of
    [namespace FileSignatures] and of the unit test ([max_file_size] is the
    name the test uses for the size bound). *)
Record FileSignature := mkFileSignature {
  file_type : string;
  extension : string;
  header : list Z;
  footer : list Z;
  max_file_size : Z;
  has_footer : bool
}.

(** Modelled from the spec: [struct CarvingStats] is declared in the same
    absent header; the four fields are those of the brace initialiser
    [{0, 0, 0, 0.0}], the last one a [double]. *)
Record CarvingStats := mkCarvingStats {
  bytes_scanned : Z;
  files_found : Z;
  files_carved : Z;
  scan_time_seconds : spec_float
}.

(** The [double] literal [0.0]. *)
Definition zero_double : spec_float := S754_zero false.

(** The value of the initialiser [{0, 0, 0, 0.0}]. *)
Definition zero_stats : CarvingStats := mkCarvingStats 0 0 0 zero_double.

(** Modelled from the spec: the data members of the engine, declared in the
    same absent header. [signatures_] is the map from [file_type] to signature
    that [operator[]] and the range-for of the source work on; the order in
    which the map is iterated is not relied on below. [max_scan_size_] is a
    [uint64_t]. *)
Record FileCarvingEngine := mkEngine {
  signatures_ : gmap string FileSignature;
  max_scan_size_ : Z;
  stats_ : CarvingStats
}.

(** ** The signature catalogue ([namespace FileSignatures]) *)

Module FileSignatures.

Definition MiB : Z := 1024 * 1024.
Definition GiB : Z := 1024 * 1024 * 1024.

Definition JPEG : FileSignature :=
  mkFileSignature "JPEG Image" ".jpg"
    [0xFF; 0xD8; 0xFF] [0xFF; 0xD9] (10 * MiB) true.

Definition PNG : FileSignature :=
  mkFileSignature "PNG Image" ".png"
    [0x89; 0x50; 0x4E; 0x47; 0x0D; 0x0A; 0x1A; 0x0A]
    [0x49; 0x45; 0x4E; 0x44; 0xAE; 0x42; 0x60; 0x82] (50 * MiB) true.

Definition PDF : FileSignature :=
  mkFileSignature "PDF Document" ".pdf"
    [0x25; 0x50; 0x44; 0x46] [0x25; 0x25; 0x45; 0x4F; 0x46] (100 * MiB) true.

Definition ZIP : FileSignature :=
  mkFileSignature "ZIP Archive" ".zip"
    [0x50; 0x4B; 0x03; 0x04] [0x50; 0x4B; 0x05; 0x06] GiB true.

Definition MP3 : FileSignature :=
  mkFileSignature "MP3 Audio" ".mp3" [0xFF; 0xFB] [] (50 * MiB) false.

Definition DOCX : FileSignature :=
  mkFileSignature "Word Document" ".docx"
    [0x50; 0x4B; 0x03; 0x04] [] (100 * MiB) false.

Definition GIF : FileSignature :=
  mkFileSignature "GIF Image" ".gif"
    [0x47; 0x49; 0x46; 0x38] [0x00; 0x3B] (10 * MiB) true.

Definition BMP : FileSignature :=
  mkFileSignature "BMP Image" ".bmp" [0x42; 0x4D] [] (50 * MiB) false.

Definition MP4 : FileSignature :=
  mkFileSignature "MP4 Video" ".mp4"
    [0x00; 0x00; 0x00; 0x18; 0x66; 0x74; 0x79; 0x70] [] (2 * GiB) false.

Definition AVI : FileSignature :=
  mkFileSignature "AVI Video" ".avi"
    [0x52; 0x49; 0x46; 0x46] [] (2 * GiB) false.

Definition MKV : FileSignature :=
  mkFileSignature "Matroska Video" ".mkv"
    [0x1A; 0x45; 0xDF; 0xA3] [] (4 * GiB) false.

Definition FLV : FileSignature :=
  mkFileSignature "Flash Video" ".flv"
    [0x46; 0x4C; 0x56; 0x01] [] GiB false.

Definition MOV : FileSignature :=
  mkFileSignature "QuickTime Video" ".mov"
    [0x00; 0x00; 0x00; 0x14; 0x66; 0x74; 0x79; 0x70; 0x71; 0x74] []
    (4 * GiB) false.

Definition WMV : FileSignature :=
  mkFileSignature "Windows Media Video" ".wmv"
    [0x30; 0x26; 0xB2; 0x75; 0x8E; 0x66; 0xCF; 0x11] [] (2 * GiB) false.

Definition RAR : FileSignature :=
  mkFileSignature "RAR Archive" ".rar"
    [0x52; 0x61; 0x72; 0x21; 0x1A; 0x07] [] (4 * GiB) false.

Definition GZIP : FileSignature :=
  mkFileSignature "GZIP Archive" ".gz" [0x1F; 0x8B; 0x08] [] GiB false.

Definition SEVENZ : FileSignature :=
  mkFileSignature "7-Zip Archive" ".7z"
    [0x37; 0x7A; 0xBC; 0xAF; 0x27; 0x1C] [] (4 * GiB) false.

Definition TAR : FileSignature :=
  mkFileSignature "TAR Archive" ".tar"
    [0x75; 0x73; 0x74; 0x61; 0x72] [] (4 * GiB) false.

Definition BZIP2 : FileSignature :=
  mkFileSignature "BZIP2 Archive" ".bz2" [0x42; 0x5A; 0x68] [] GiB false.

Definition FLAC : FileSignature :=
  mkFileSignature "FLAC Audio" ".flac"
    [0x66; 0x4C; 0x61; 0x43] [] (500 * MiB) false.

Definition WAV : FileSignature :=
  mkFileSignature "WAV Audio" ".wav"
    [0x52; 0x49; 0x46; 0x46] [] (500 * MiB) false.

Definition M4A : FileSignature :=
  mkFileSignature "M4A Audio" ".m4a"
    [0x00; 0x00; 0x00; 0x20; 0x66; 0x74; 0x79; 0x70; 0x4D; 0x34; 0x41] []
    (200 * MiB) false.

Definition OGG : FileSignature :=
  mkFileSignature "OGG Audio" ".ogg"
    [0x4F; 0x67; 0x67; 0x53] [] (200 * MiB) false.

Definition WMA : FileSignature :=
  mkFileSignature "Windows Media Audio" ".wma"
    [0x30; 0x26; 0xB2; 0x75; 0x8E; 0x66; 0xCF; 0x11] [] (200 * MiB) false.

End FileSignatures.

(** ** The engine *)

(** The constructor: an empty registry, a 1 TB scan limit, zeroed stats. *)
Definition new_engine : FileCarvingEngine :=
  mkEngine ∅ (1024 * 1024 * 1024 * 1024) zero_stats.

(** [signatures_[signature.file_type] = signature;] *)
Definition AddSignature (signature : FileSignature) (e : FileCarvingEngine)
  : FileCarvingEngine :=
  mkEngine (<[file_type signature := signature]> (signatures_ e))
           (max_scan_size_ e) (stats_ e).

(** The signatures [LoadDefaultSignatures] registers, in the order of its
    [AddSignature] calls and under the five headings of its comments. *)
Definition image_signatures : list FileSignature :=
  [FileSignatures.JPEG; FileSignatures.PNG; FileSignatures.GIF;
   FileSignatures.BMP].

Definition document_signatures : list FileSignature :=
  [FileSignatures.PDF; FileSignatures.DOCX].

Definition archive_signatures : list FileSignature :=
  [FileSignatures.ZIP; FileSignatures.RAR; FileSignatures.GZIP;
   FileSignatures.SEVENZ; FileSignatures.TAR; FileSignatures.BZIP2].

Definition audio_signatures : list FileSignature :=
  [FileSignatures.MP3; FileSignatures.FLAC; FileSignatures.WAV;
   FileSignatures.M4A; FileSignatures.OGG; FileSignatures.WMA].

Definition video_signatures : list FileSignature :=
  [FileSignatures.MP4; FileSignatures.AVI; FileSignatures.MKV;
   FileSignatures.FLV; FileSignatures.MOV; FileSignatures.WMV].

Definition default_signatures : list FileSignature :=
  image_signatures ++ document_signatures ++ archive_signatures
    ++ audio_signatures ++ video_signatures.

(** The calls are made one after the other, each on the engine the previous
    one left. *)
Definition LoadDefaultSignatures (e : FileCarvingEngine) : FileCarvingEngine :=
  fold_left (fun acc sig => AddSignature sig acc) default_signatures e.

(** [Initialize] loads the defaults, logs the count and returns [true]. *)
Definition Initialize (e : FileCarvingEngine) : bool * FileCarvingEngine :=
  (true, LoadDefaultSignatures e).

(** The range-for over [signatures_] pushes the key of every entry. *)
Definition GetSupportedFileTypes (e : FileCarvingEngine) : list string :=
  (map_to_list (signatures_ e)).*1.

Definition SetMaxScanSize (size : Z) (e : FileCarvingEngine)
  : FileCarvingEngine :=
  mkEngine (signatures_ e) size (stats_ e).

Definition GetStats (e : FileCarvingEngine) : CarvingStats := stats_ e.

(** ** Carving *)

(** What the paths handed to [CarveFiles] name: the content of the device or
    image at [device_path], and the files below [output_dir]. *)
Definition Storage := gmap string (list Z).

(** [CarveFiles] resets the stats and returns 0: the body is a placeholder
    that opens neither the device nor the output directory (the two [Log]
    calls only report this and are left out). The result is the returned
    count, the engine and the storage after the call. *)
Definition CarveFiles (device_path output_dir : string)
    (e : FileCarvingEngine) (disk : Storage)
  : Z * FileCarvingEngine * Storage :=
  let e' := mkEngine (signatures_ e) (max_scan_size_ e) zero_stats in
  (0, e', disk).

(** ** Byte matching *)

(** The result of code that reads through a raw pointer: a value, or an
    access of [n] bytes at offset [off] that is not inside the object. *)
Inductive outcome (A : Type) : Type :=
| Ret (a : A)
| Fault (off n : Z).
Arguments Ret {A} a.
Arguments Fault {A} off n.

(** [std::memcmp(data + off, rhs.data(), rhs.size()) == 0], where [object]
    holds the bytes that [data] points to: the [rhs.size()] bytes at [off] are
    read and compared. Comparing zero bytes reads nothing. *)
Definition memcmp_eq (object : list Z) (off : Z) (rhs : list Z)
  : outcome bool :=
  if bool_decide (vsize rhs = 0) then Ret true
  else if bool_decide (0 <= off /\ off + vsize rhs <= vsize object)
  then Ret (bool_decide (take (length rhs) (drop (Z.to_nat off) object) = rhs))
  else Fault off (vsize rhs).

(** [MatchesSignature(data + off, size, signature)]. *)
Definition MatchesSignature (object : list Z) (off size : Z)
    (signature : list Z) : outcome bool :=
  if size <? vsize signature then Ret false
  else memcmp_eq object off signature.

(** The [for] loop of [FindFooter], entered with the loop variable [i]. The
    bound [max_size - footer.size()] and the size [max_size - i] handed to
    [MatchesSignature] are [size_t] subtractions. *)
Equations? FindFooter_loop (object : list Z) (max_size : Z) (footer : list Z)
    (i : Z) : outcome Z
    by wf (Z.to_nat (wrap (max_size - vsize footer) - i)) lt :=
FindFooter_loop object max_size footer i
    with Z_lt_dec i (wrap (max_size - vsize footer)) := {
  | left _ with MatchesSignature object i (wrap (max_size - i)) footer := {
      | Ret true := Ret (wrap (i + vsize footer));
      | Ret false := FindFooter_loop object max_size footer (wrap (i + 1));
      | Fault off n := Fault off n };
  | right _ := Ret 0 }.
Proof.
  pose proof (Z.mod_pos_bound (i + 1) (2 ^ SIZE_BITS) eq_refl) as Hnext.
  match goal with
  | Hlt : _ < wrap ?b |- _ =>
      pose proof (Z.mod_pos_bound b (2 ^ SIZE_BITS) eq_refl) as Hbound
  end.
  unfold wrap in *.
  destruct (Z_lt_dec i 0) as [Hneg | Hpos]; [lia |].
  rewrite (Z.mod_small (i + 1)) by lia. lia.
Qed.

(** [FindFooter(data, start, max_size, footer)], reading through [data] the
    bytes of [object]. The value 0 stands for a footer that was not found. *)
Definition FindFooter (object : list Z) (start max_size : Z) (footer : list Z)
  : outcome Z :=
  match footer with
  | [] => Ret 0
  | _ :: _ => FindFooter_loop object max_size footer start
  end.

(** [haystack.find(needle) != std::string::npos], the test the unit tests
    apply to the names of the supported types. *)
Definition mentions (needle haystack : string) : bool :=
  match String.index 0 needle haystack with
  | Some _ => true
  | None => false
  end.

From Stdlib Require Import Ascii.
From stdpp Require Import pretty.

Local Open Scope string_scope.
Local Open Scope Z_scope.

(** ** The engine as its clients drive it *)

(** A call of one of the member functions that change the engine, with its
    arguments: [Initialize], [AddSignature], [SetMaxScanSize], [CarveFiles]. *)
Inductive api_call : Type :=
| CallInitialize
| CallAddSignature (signature : FileSignature)
| CallSetMaxScanSize (size : Z)
| CallCarveFiles (device_path output_dir : string).

(** The engine and the storage after one call; the values the calls return
    are dropped. *)
Definition perform (call : api_call) (st : FileCarvingEngine * Storage)
  : FileCarvingEngine * Storage :=
  match call with
  | CallInitialize => ((Initialize st.1).2, st.2)
  | CallAddSignature signature => (AddSignature signature st.1, st.2)
  | CallSetMaxScanSize size => (SetMaxScanSize size st.1, st.2)
  | CallCarveFiles device_path output_dir =>
      let run := CarveFiles device_path output_dir st.1 st.2 in
      (run.1.2, run.2)
  end.

(** A sequence of calls, made in the order of the list. *)
Definition perform_all (calls : list api_call)
    (st : FileCarvingEngine * Storage) : FileCarvingEngine * Storage :=
  fold_left (fun acc call => perform call acc) calls st.

(** ** The command line (cli/cli.h, cli.cpp) *)

Module CLI.

(** [struct CLIOptions]. *)
Record CLIOptions := mkCLIOptions {
  device_path : string;
  output_path : string;
  mode : string;
  file_types : list string;
  interactive : bool;
  verbose : bool;
  list_devices : bool;
  export_csv : bool;
  export_path : string
}.

(** [options_] as the constructor [CLI::CLI()] leaves it: the strings and the
    vector are empty, the four flags are set to [false]. *)
Definition initial_options : CLIOptions :=
  mkCLIOptions "" "" "" [] false false false false "".

(** Assignments to one member of [options_]. *)
Definition set_device_path (v : string) (o : CLIOptions) : CLIOptions :=
  mkCLIOptions v (output_path o) (mode o) (file_types o) (interactive o)
    (verbose o) (list_devices o) (export_csv o) (export_path o).

Definition set_output_path (v : string) (o : CLIOptions) : CLIOptions :=
  mkCLIOptions (device_path o) v (mode o) (file_types o) (interactive o)
    (verbose o) (list_devices o) (export_csv o) (export_path o).

Definition set_mode (v : string) (o : CLIOptions) : CLIOptions :=
  mkCLIOptions (device_path o) (output_path o) v (file_types o)
    (interactive o) (verbose o) (list_devices o) (export_csv o)
    (export_path o).

(** [options_.file_types.push_back(v)]. *)
Definition push_file_type (v : string) (o : CLIOptions) : CLIOptions :=
  mkCLIOptions (device_path o) (output_path o) (mode o) (file_types o ++ [v])
    (interactive o) (verbose o) (list_devices o) (export_csv o)
    (export_path o).

Definition set_interactive (v : bool) (o : CLIOptions) : CLIOptions :=
  mkCLIOptions (device_path o) (output_path o) (mode o) (file_types o) v
    (verbose o) (list_devices o) (export_csv o) (export_path o).

Definition set_verbose (v : bool) (o : CLIOptions) : CLIOptions :=
  mkCLIOptions (device_path o) (output_path o) (mode o) (file_types o)
    (interactive o) v (list_devices o) (export_csv o) (export_path o).

Definition set_list_devices (v : bool) (o : CLIOptions) : CLIOptions :=
  mkCLIOptions (device_path o) (output_path o) (mode o) (file_types o)
    (interactive o) (verbose o) v (export_csv o) (export_path o).

Definition set_export_csv (v : bool) (o : CLIOptions) : CLIOptions :=
  mkCLIOptions (device_path o) (output_path o) (mode o) (file_types o)
    (interactive o) (verbose o) (list_devices o) v (export_path o).

Definition set_export_path (v : string) (o : CLIOptions) : CLIOptions :=
  mkCLIOptions (device_path o) (output_path o) (mode o) (file_types o)
    (interactive o) (verbose o) (list_devices o) (export_csv o) v.

(** What [PrintHelp] and [PrintVersion] write; the text itself is left out. *)
Inductive printout : Type := Help | Version.

(** How [ParseArguments] ends: it returns a [bool], with [options_] as it then
    is, or it prints and calls [exit(code)]. *)
Inductive parsed : Type :=
| Returned (ok : bool) (options : CLIOptions)
| Exited (what : printout) (code : Z).

(** [arg == a || arg == b]. *)
Definition is_option (arg a b : string) : bool :=
  (arg =? a)%string || (arg =? b)%string.

(** [argv[i + 1][0] != '-'] is false: the first character of the C string is a
    dash. The first character of an empty argument is the terminating zero. *)
Definition starts_with_dash (arg : string) : bool :=
  match arg with
  | String c _ => Ascii.eqb c "-"%char
  | EmptyString => false
  end.

(** The [for] loop of [ParseArguments]. [args] holds [argv[i]] to
    [argv[argc - 1]]: the head is [argv[i]], and [i + 1 < argc] says that the
    tail is not empty. An option that takes a value steps over it with
    [argv[++i]]. *)
Fixpoint ParseArguments_loop (args : list string) (options : CLIOptions)
  : parsed :=
  match args with
  | [] => Returned true options
  | arg :: rest =>
      if is_option arg "-h" "--help" then Exited Help 0
      else if is_option arg "-v" "--version" then Exited Version 0
      else if is_option arg "-l" "--list-devices" then
        ParseArguments_loop rest (set_list_devices true options)
      else if is_option arg "-i" "--interactive" then
        ParseArguments_loop rest (set_interactive true options)
      else if (arg =? "--verbose")%string then
        ParseArguments_loop rest (set_verbose true options)
      else if is_option arg "-d" "--device" then
        match rest with
        | value :: rest' =>
            ParseArguments_loop rest' (set_device_path value options)
        | [] => ParseArguments_loop rest options
        end
      else if is_option arg "-o" "--output" then
        match rest with
        | value :: rest' =>
            ParseArguments_loop rest' (set_output_path value options)
        | [] => ParseArguments_loop rest options
        end
      else if is_option arg "-m" "--mode" then
        match rest with
        | value :: rest' =>
            ParseArguments_loop rest' (set_mode value options)
        | [] => ParseArguments_loop rest options
        end
      else if is_option arg "-t" "--type" then
        match rest with
        | value :: rest' =>
            ParseArguments_loop rest' (push_file_type value options)
        | [] => ParseArguments_loop rest options
        end
      else if (arg =? "--export-csv")%string then
        let options' := set_export_csv true options in
        match rest with
        | next :: rest' =>
            if starts_with_dash next then
              ParseArguments_loop rest (set_export_path "results.csv" options')
            else ParseArguments_loop rest' (set_export_path next options')
        | [] =>
            ParseArguments_loop rest (set_export_path "results.csv" options')
        end
      else ParseArguments_loop rest options
  end.

(** [ParseArguments(argc, argv)], with [argv] the list of the [argc]
    arguments, the program name first. *)
Definition ParseArguments (argv : list string) (options : CLIOptions)
  : parsed :=
  if Z.of_nat (length argv) <? 2 then Returned false options
  else ParseArguments_loop (drop 1 argv) options.

(** The command handlers [Run] can hand over to. *)
Inductive handler : Type :=
| HandleListDevices_
| HandleInteractive_
| HandleScan_
| HandleRecover_
| HandleCarve_.

(** How [Run] goes on after parsing: the process has exited, or [Run] prints
    the help and returns 1, or it returns what a handler returns, or it
    reports an unknown mode and returns 1. *)
Inductive run_path : Type :=
| ProcessExit (what : printout) (code : Z)
| Usage
| Dispatch (h : handler) (options : CLIOptions)
| UnknownMode (options : CLIOptions).

(** [Run(argc, argv)], up to the call of the handler. *)
Definition Run (argv : list string) (options : CLIOptions) : run_path :=
  match ParseArguments argv options with
  | Exited what code => ProcessExit what code
  | Returned false _ => Usage
  | Returned true o =>
      if list_devices o then Dispatch HandleListDevices_ o
      else if interactive o then Dispatch HandleInteractive_ o
      else if (mode o =? "scan")%string then Dispatch HandleScan_ o
      else if (mode o =? "recover")%string then Dispatch HandleRecover_ o
      else if (mode o =? "carve")%string then Dispatch HandleCarve_ o
      else UnknownMode o
  end.

(** [s.empty()]. *)
Definition str_empty (s : string) : bool := (s =? "")%string.

(** [HandleCarve]: the return value, the stats it reports when it gets that
    far, and the storage afterwards. The carver is a local engine, built and
    initialised for this one call; what is printed is left out. *)
Definition HandleCarve (options : CLIOptions) (disk : Storage)
  : Z * option CarvingStats * Storage :=
  if str_empty (device_path options) || str_empty (output_path options)
  then (1, None, disk)
  else
    let carver := (Initialize new_engine).2 in
    let run := CarveFiles (device_path options) (output_path options)
                 carver disk in
    let stats := GetStats run.1.2 in
    (0, Some stats, run.2).






(** [ReadUserInput]: the next line of the standard input. [stdin] holds the
    lines that are still to come; at the end of the input [std::getline]
    fails and the string stays empty. The prompt is left out. *)
Definition ReadUserInput (stdin : list string) : string * list string :=
  match stdin with
  | line :: rest => (line, rest)
  | [] => ("", [])
  end.

Section Interactive.

(** Everything the handlers work on besides the options and the standard
    input: the recovery engine, the storage, the terminal. The three handlers
    that the menu starts are taken as they come; [HandleInteractive] drops
    their return values. *)
Variable World : Type.
Variables HandleScan HandleRecover HandleCarve_menu :
  CLIOptions -> list string -> World -> list string * World.

(** The [while (true)] loop of [HandleInteractive], for at most [fuel] turns.
    [None] says that the loop is still running after that many turns;
    otherwise the result is the return value with the options, the rest of
    the input and the world at that point. *)
Fixpoint HandleInteractive_loop (fuel : nat) (options : CLIOptions)
    (stdin : list string) (w : World)
  : option (Z * CLIOptions * list string * World) :=
  match fuel with
  | O => None
  | S fuel' =>
      let (choice, stdin1) := ReadUserInput stdin in
      if (choice =? "1")%string then
        HandleInteractive_loop fuel' options stdin1 w
      else if (choice =? "2")%string then
        let (dev, stdin2) := ReadUserInput stdin1 in
        let options' := set_device_path dev options in
        let (stdin3, w') := HandleScan options' stdin2 w in
        HandleInteractive_loop fuel' options' stdin3 w'
      else if (choice =? "3")%string then
        let (dev, stdin2) := ReadUserInput stdin1 in
        let (out, stdin3) := ReadUserInput stdin2 in
        let options' := set_output_path out (set_device_path dev options) in
        let (stdin4, w') := HandleRecover options' stdin3 w in
        HandleInteractive_loop fuel' options' stdin4 w'
      else if (choice =? "4")%string then
        let (dev, stdin2) := ReadUserInput stdin1 in
        let (out, stdin3) := ReadUserInput stdin2 in
        let options' := set_output_path out (set_device_path dev options) in
        let (stdin4, w') := HandleCarve_menu options' stdin3 w in
        HandleInteractive_loop fuel' options' stdin4 w'
      else if (choice =? "5")%string then Some (0, options, stdin1, w)
      else HandleInteractive_loop fuel' options stdin1 w
  end.

End Interactive.

End CLI.

(** ** The device selection dialog (ui/device_wizard.h, device_wizard.cpp) *)

Module DeviceWizard.

(** [struct DeviceInfo]. *)
Record DeviceInfo := mkDeviceInfo {
  path : string;
  name : string;
  filesystem : string;
  size_bytes : Z;
  is_mounted : bool
}.

(** [static_cast<int>(x)] of a [size_t], on a target with 32-bit [int]. *)
Definition to_int (x : Z) : Z := (x + 2 ^ 31) mod 2 ^ 32 - 2 ^ 31.

(** The standard icons the dialog uses. *)
Inductive icon : Type := SP_DriveHDIcon | SP_DriveFDIcon | SP_DriveNetIcon.

(** What the code sets on a [QListWidgetItem], apart from its text: the
    [Qt::UserRole] data when there is any, the icon, and whether the item can
    be selected. *)
Record item := mkItem {
  user_role : option Z;
  item_icon : option icon;
  selectable : bool
}.

(** [item->data(Qt::UserRole).toInt()]: an item without such data gives an
    invalid [QVariant], which converts to 0. *)
Definition toInt (i : item) : Z := default 0 (user_role i).

(** What [lbl_device_info_] shows: one of the two fixed texts, or the
    description [UpdateDeviceInfo] formats for a device. *)
Inductive info_label : Type :=
| NoDeviceSelected
| NoDevicesDetected
| InfoOf (dev : DeviceInfo).

(** The members of the dialog the code works on. *)
Record wizard := mkWizard {
  device_list_ : list item;
  devices_ : list DeviceInfo;
  selected_index_ : Z;
  btn_ok_enabled : bool;
  lbl_device_info_ : info_label
}.

(** The mock devices of [ScanAvailableDevices]. *)
Definition ScanAvailableDevices : list DeviceInfo :=
  [ mkDeviceInfo "/dev/sda1" "System Disk - Partition 1" "NTFS"
      (500 * 1024 * 1024 * 1024) true;
    mkDeviceInfo "/dev/sdb1" "External Drive" "ext4"
      (1024 * 1024 * 1024 * 1024) false;
    mkDeviceInfo "/dev/disk2s1" "USB Flash Drive" "FAT32"
      (32 * 1024 * 1024 * 1024) true ].

(** The icon [LoadDevices] picks from the file system name. *)
Definition icon_of (dev : DeviceInfo) : icon :=
  if (filesystem dev =? "NTFS")%string then SP_DriveHDIcon
  else if (filesystem dev =? "APFS")%string || (filesystem dev =? "HFS+")%string
  then SP_DriveFDIcon
  else SP_DriveNetIcon.

(** [LoadDevices]: the list and the selection are reset and the OK button is
    disabled; then the list is filled from the scan, one item per device with
    its index as data, or with one placeholder that cannot be selected. The
    label is only written when no device was found. *)
Definition LoadDevices (w : wizard) : wizard :=
  let devices := ScanAvailableDevices in
  match devices with
  | [] =>
      mkWizard [mkItem None None false] devices (-1) false NoDevicesDetected
  | _ :: _ =>
      mkWizard
        (imap (fun i dev =>
                 mkItem (Some (to_int (Z.of_nat i))) (Some (icon_of dev)) true)
              devices)
        devices (-1) false (lbl_device_info_ w)
  end.

(** The constructor: [selected_index_(-1)], then [SetupUI] (an empty list, the
    OK button disabled, the label "No device selected"), then
    [LoadDevices]. *)
Definition new_wizard : wizard :=
  LoadDevices (mkWizard [] [] (-1) false NoDeviceSelected).

Definition onRefreshDevices (w : wizard) : wizard := LoadDevices w.

(** [devices_.size()] as the [int] the index is compared with. *)
Definition device_count (w : wizard) : Z :=
  to_int (Z.of_nat (length (devices_ w))).

(** [UpdateDeviceInfo(index)]. *)
Definition UpdateDeviceInfo (index : Z) (w : wizard) : wizard :=
  if (index <? 0) || (device_count w <=? index) then w
  else
    match devices_ w !! Z.to_nat index with
    | Some dev =>
        mkWizard (device_list_ w) (devices_ w) (selected_index_ w)
          (btn_ok_enabled w) (InfoOf dev)
    | None => w
    end.

(** [onDeviceSelected(item)]; [None] is the null pointer. *)
Definition onDeviceSelected (it : option item) (w : wizard) : wizard :=
  match it with
  | None => w
  | Some it =>
      let index := toInt it in
      if (0 <=? index) && (index <? device_count w) then
        let w1 := mkWizard (device_list_ w) (devices_ w) index
                    (btn_ok_enabled w) (lbl_device_info_ w) in
        let w2 := UpdateDeviceInfo index w1 in
        mkWizard (device_list_ w2) (devices_ w2) (selected_index_ w2) true
          (lbl_device_info_ w2)
      else w
  end.

(** [GetSelectedDevice]. *)
Definition GetSelectedDevice (w : wizard) : string :=
  if (0 <=? selected_index_ w) && (selected_index_ w <? device_count w) then
    match devices_ w !! Z.to_nat (selected_index_ w) with
    | Some dev => path dev
    | None => ""
    end
  else "".

(** What the user can do with the open dialog: press Refresh, or click an
    item of the list. *)
Inductive event : Type :=
| Refresh
| Click (it : option item).

Definition handle (ev : event) (w : wizard) : wizard :=
  match ev with
  | Refresh => onRefreshDevices w
  | Click it => onDeviceSelected it w
  end.

(** The dialog after a sequence of events, starting from the constructor. *)
Definition after (events : list event) : wizard :=
  fold_left (fun w ev => handle ev w) events new_wizard.

End DeviceWizard.


(** * Properties *)

(** ** Machine integers *)

Lemma wrap_range x : 0 <= wrap x < 2 ^ SIZE_BITS.
Proof. apply Z.mod_pos_bound. reflexivity. Qed.

Lemma wrap_small x : 0 <= x < 2 ^ SIZE_BITS -> wrap x = x.
Proof. apply Z.mod_small. Qed.

Lemma vsize_nonneg v : 0 <= vsize v.
Proof. unfold vsize. lia. Qed.

(** ** The registry *)

Section Registry.

Implicit Types (e : FileCarvingEngine) (sig : FileSignature) (t : string).

Lemma supported_length e :
  length (GetSupportedFileTypes e) = size (signatures_ e).
Proof.
  unfold GetSupportedFileTypes.
  now rewrite length_fmap, length_map_to_list.
Qed.

Lemma supported_elem e t :
  t ∈ GetSupportedFileTypes e <-> is_Some (signatures_ e !! t).
Proof.
  unfold GetSupportedFileTypes. rewrite list_elem_of_fmap. split.
  - intros [[k v] [-> Hin]]. apply elem_of_map_to_list in Hin. now exists v.
  - intros [v Hv]. exists (t, v). split; [reflexivity |].
    now apply elem_of_map_to_list.
Qed.

Lemma supported_NoDup e : NoDup (GetSupportedFileTypes e).
Proof. apply NoDup_fst_map_to_list. Qed.

Lemma AddSignature_lookup sig e :
  signatures_ (AddSignature sig e) !! file_type sig = Some sig.
Proof. apply lookup_insert_eq. Qed.

Lemma AddSignature_lookup_ne sig e t :
  t <> file_type sig ->
  signatures_ (AddSignature sig e) !! t = signatures_ e !! t.
Proof. intros Hne. simpl. now rewrite lookup_insert_ne. Qed.

Lemma LoadDefaultSignatures_fold sigs e t :
  is_Some (signatures_ (fold_left (fun acc sig => AddSignature sig acc) sigs e)
             !! t)
  <-> t ∈ file_type <$> sigs \/ is_Some (signatures_ e !! t).
Proof.
  revert e. induction sigs as [| sig sigs IH]; intros e; simpl.
  - rewrite elem_of_nil. tauto.
  - rewrite IH, elem_of_cons. simpl.
    destruct (decide (t = file_type sig)) as [-> | Hne].
    + rewrite lookup_insert_eq. split; [intros _ | intros _; right; eauto].
      left. now left.
    + rewrite lookup_insert_ne by congruence. tauto.
Qed.

Lemma LoadDefaultSignatures_fold_other sigs e t :
  t ∉ file_type <$> sigs ->
  signatures_ (fold_left (fun acc sig => AddSignature sig acc) sigs e) !! t
  = signatures_ e !! t.
Proof.
  revert e. induction sigs as [| sig sigs IH]; intros e Hnot; simpl.
  - reflexivity.
  - rewrite fmap_cons, not_elem_of_cons in Hnot. destruct Hnot as [Hne Hnot].
    rewrite IH by exact Hnot. now apply AddSignature_lookup_ne.
Qed.

Lemma LoadDefaultSignatures_fold_lookup sigs e sig :
  NoDup (file_type <$> sigs) -> sig ∈ sigs ->
  signatures_ (fold_left (fun acc sig => AddSignature sig acc) sigs e)
    !! file_type sig = Some sig.
Proof.
  revert e. induction sigs as [| sig0 sigs IH]; intros e Hnd Hin; simpl.
  - now apply elem_of_nil in Hin.
  - rewrite fmap_cons, NoDup_cons in Hnd. destruct Hnd as [Hfresh Hnd].
    apply elem_of_cons in Hin. destruct Hin as [-> | Hin].
    + rewrite LoadDefaultSignatures_fold_other by exact Hfresh.
      apply AddSignature_lookup.
    + now apply IH.
Qed.

Lemma default_signatures_NoDup : NoDup (file_type <$> default_signatures).
Proof. apply (bool_decide_unpack _). vm_compute. exact I. Qed.

(** C7: [AddSignature] with a [file_type] that is not registered makes the
    list of supported types exactly one longer; with a [file_type] that is
    registered already (a replacement) the length stays the same. *)
Theorem AddSignature_supported_size sig e :
  (signatures_ e !! file_type sig = None ->
   length (GetSupportedFileTypes (AddSignature sig e))
   = S (length (GetSupportedFileTypes e)))
  /\ (is_Some (signatures_ e !! file_type sig) ->
      length (GetSupportedFileTypes (AddSignature sig e))
      = length (GetSupportedFileTypes e)).
Proof.
  rewrite !supported_length. simpl. split; intros Hk.
  - now apply map_size_insert_None.
  - now apply map_size_insert_Some.
Qed.

(** The two cases of C7 on the initialised engine: the custom signature of the
    unit test is new, the JPEG signature is registered already. *)
Lemma AddSignature_supported_size_witness :
  let e := (Initialize new_engine).2 in
  let custom_sig :=
    mkFileSignature "Custom Type" ".cst" [0x43; 0x53; 0x54] [] 1024 false in
  (signatures_ e !! file_type custom_sig = None
   /\ length (GetSupportedFileTypes (AddSignature custom_sig e))
      = S (length (GetSupportedFileTypes e)))
  /\ (is_Some (signatures_ e !! file_type FileSignatures.JPEG)
      /\ length (GetSupportedFileTypes (AddSignature FileSignatures.JPEG e))
         = length (GetSupportedFileTypes e)).
Proof.
  intros e custom_sig.
  assert (Hnew : signatures_ e !! file_type custom_sig = None)
    by (vm_compute; reflexivity).
  assert (Hold : is_Some (signatures_ e !! file_type FileSignatures.JPEG))
    by (eexists; vm_compute; reflexivity).
  split; split; try assumption.
  - exact (proj1 (AddSignature_supported_size custom_sig e) Hnew).
  - exact (proj2 (AddSignature_supported_size FileSignatures.JPEG e) Hold).
Defined.

(** C8: after [LoadDefaultSignatures] on a fresh engine the supported types
    are the [file_type]s of the loaded signatures, each exactly once, and
    there are as many of them as [AddSignature] calls, namely 24. *)
Theorem LoadDefaultSignatures_supported :
  let types := GetSupportedFileTypes (LoadDefaultSignatures new_engine) in
  NoDup types
  /\ types ≡ₚ file_type <$> default_signatures
  /\ length types = length default_signatures
  /\ length default_signatures = 24%nat.
Proof.
  intros types.
  pose proof default_signatures_NoDup as Hnames.
  assert (Hperm : types ≡ₚ file_type <$> default_signatures).
  { apply NoDup_Permutation; [apply supported_NoDup | exact Hnames |].
    intros t. unfold types, LoadDefaultSignatures.
    rewrite supported_elem, LoadDefaultSignatures_fold. simpl.
    rewrite lookup_empty. split; [intros [Hin | Hno] | now left].
    - exact Hin.
    - now destruct Hno. }
  split; [apply supported_NoDup |].
  split; [exact Hperm |].
  split; [| reflexivity].
  now rewrite Hperm, length_fmap.
Qed.

(** C9: after [Initialize] the registry holds every signature listed under
    each of the five headings image, document, archive, audio and video; no
    heading is empty, and the [file_type] of each signature names its
    category. *)
Theorem Initialize_covers_categories :
  let e := (Initialize new_engine).2 in
  (Initialize new_engine).1 = true
  /\ Forall (fun '(category, sigs) =>
              sigs <> []
              /\ Forall (fun sig =>
                           signatures_ e !! file_type sig = Some sig
                           /\ file_type sig ∈ GetSupportedFileTypes e
                           /\ mentions category (file_type sig) = true) sigs)
       [("Image", image_signatures); ("Document", document_signatures);
        ("Archive", archive_signatures); ("Audio", audio_signatures);
        ("Video", video_signatures)].
Proof.
  intros e. split; [reflexivity |].
  assert (Hreg : forall sig, sig ∈ default_signatures ->
            signatures_ e !! file_type sig = Some sig).
  { intros sig Hin.
    now apply LoadDefaultSignatures_fold_lookup;
      [apply default_signatures_NoDup |]. }
  assert (Hgroup : forall category sigs,
            sigs ⊆ default_signatures ->
            forallb (fun sig => mentions category (file_type sig)) sigs = true ->
            Forall (fun sig =>
                      signatures_ e !! file_type sig = Some sig
                      /\ file_type sig ∈ GetSupportedFileTypes e
                      /\ mentions category (file_type sig) = true) sigs).
  { intros category sigs Hsub Hall. apply Forall_forall. intros sig Hin.
    rewrite forallb_forall in Hall.
    split; [| split].
    - apply Hreg, Hsub, Hin.
    - apply supported_elem. rewrite (Hreg sig) by apply Hsub, Hin. eauto.
    - apply Hall. now apply list_elem_of_In. }
  repeat (apply Forall_cons_2; [split; [discriminate |] |]);
    [.. | apply List.Forall_nil];
    (apply Hgroup;
     [ intros sig Hin; unfold default_signatures; rewrite !elem_of_app; tauto
     | reflexivity ]).
Qed.

End Registry.

(** ** Carving *)

Section Carving.

Variables (device_path output_dir : string).
Variables (e : FileCarvingEngine) (disk : Storage).

(** What the placeholder body of [CarveFiles] amounts to. *)
Lemma CarveFiles_unfold :
  CarveFiles device_path output_dir e disk
  = (0, mkEngine (signatures_ e) (max_scan_size_ e) zero_stats, disk).
Proof. reflexivity. Qed.

(** C5: whatever the stats and the arguments were, [CarveFiles] sets the four
    fields [bytes_scanned], [files_found], [files_carved] and
    [scan_time_seconds] to zero, so that [GetStats] reads all zeros. *)
Theorem CarveFiles_resets_stats :
  let stats := GetStats (CarveFiles device_path output_dir e disk).1.2 in
  bytes_scanned stats = 0
  /\ files_found stats = 0
  /\ files_carved stats = 0
  /\ scan_time_seconds stats = zero_double.
Proof. rewrite CarveFiles_unfold. simpl. auto. Qed.

(** C10: [CarveFiles] leaves the signature registry and the configured
    [max_scan_size_] as they were, also a limit that [SetMaxScanSize] has just
    set; only the stats change. *)
Theorem CarveFiles_frame :
  let e' := (CarveFiles device_path output_dir e disk).1.2 in
  signatures_ e' = signatures_ e
  /\ max_scan_size_ e' = max_scan_size_ e
  /\ GetSupportedFileTypes e' = GetSupportedFileTypes e
  /\ forall size,
       max_scan_size_
         (CarveFiles device_path output_dir (SetMaxScanSize size e) disk).1.2
       = size.
Proof. rewrite CarveFiles_unfold. simpl. auto. Qed.

(** C1, as the code has it: [CarveFiles] is a placeholder. Whatever the
    source holds, also a registered header followed by its footer, it finds
    no candidate and carves no file: it returns 0, [files_found] and
    [files_carved] are 0 after the call, and nothing is written. *)
Theorem CarveFiles_placeholder :
  let run := CarveFiles device_path output_dir e disk in
  run.1.1 = 0
  /\ files_found (GetStats run.1.2) = 0
  /\ files_carved (GetStats run.1.2) = 0
  /\ run.2 = disk.
Proof. rewrite CarveFiles_unfold. simpl. auto. Qed.

End Carving.

(** C1 fails as stated: on an initialised engine and a source that is the
    registered JPEG header immediately followed by its footer, well within
    [max_file_size], [CarveFiles] finds no candidate and [files_carved] stays
    0 instead of going up by 1. *)
Lemma CarveFiles_jpeg_not_carved :
  let e := (Initialize new_engine).2 in
  let jpeg_image :=
    (header FileSignatures.JPEG ++ footer FileSignatures.JPEG)%list in
  let disk : Storage := {["/dev/image" := jpeg_image]} in
  let run := CarveFiles "/dev/image" "/out" e disk in
  signatures_ e !! "JPEG Image" = Some FileSignatures.JPEG
  /\ disk !! "/dev/image" = Some jpeg_image
  /\ vsize jpeg_image <= max_file_size FileSignatures.JPEG
  /\ files_found (GetStats run.1.2) <> 1
  /\ files_carved (GetStats run.1.2) <> files_carved (GetStats e) + 1
  /\ run.1.1 <> 1
  /\ run.2 = disk.
Proof.
  intros e jpeg_image disk run.
  split; [vm_compute; reflexivity |].
  split; [apply lookup_singleton_eq |].
  split; [vm_compute; discriminate |].
  repeat split; discriminate.
Qed.

(** ** Byte matching *)

Section Matching.

Implicit Types (object signature : list Z) (off size start max_size i : Z).

(** The bytes of [object] that a comparison with [signature] at [off] reads. *)
Abbreviation bytes_at object off signature :=
  (take (length signature) (drop (Z.to_nat off) object)).

Lemma memcmp_eq_in_range object off signature :
  0 <= off -> off + vsize signature <= vsize object ->
  memcmp_eq object off signature
  = Ret (bool_decide (bytes_at object off signature = signature)).
Proof.
  intros Hoff Hfit. unfold memcmp_eq.
  destruct (bool_decide_reflect (vsize signature = 0)) as [Hz | Hnz].
  - destruct signature; [| discriminate Hz].
    rewrite take_0. now rewrite bool_decide_eq_true_2.
  - now rewrite (bool_decide_eq_true_2 (0 <= off /\ _)).
Qed.

Lemma memcmp_eq_out_of_range object off signature :
  signature <> [] -> vsize object < off + vsize signature ->
  memcmp_eq object off signature = Fault off (vsize signature).
Proof.
  intros Hne Hout. unfold memcmp_eq.
  rewrite bool_decide_eq_false_2
    by (destruct signature; [congruence | discriminate]).
  rewrite bool_decide_eq_false_2 by lia. reflexivity.
Qed.

(** Inside the object, [MatchesSignature] compares bytes and nothing else. *)
Lemma MatchesSignature_in_range object off size signature :
  0 <= off -> off + size <= vsize object ->
  MatchesSignature object off size signature
  = Ret (bool_decide (vsize signature <= size
                      /\ bytes_at object off signature = signature)).
Proof.
  intros Hoff Hfit. unfold MatchesSignature.
  destruct (Z.ltb_spec size (vsize signature)) as [Hshort | Hlong].
  - now rewrite bool_decide_eq_false_2 by lia.
  - rewrite memcmp_eq_in_range by lia. f_equal.
    apply bool_decide_ext. tauto.
Qed.

(** C6, as the code has it: no signature is rejected or skipped. Registering
    stores the signature as given, and matching its header against a window
    that lies inside the object never faults; it reports a match exactly when
    the window has at least as many bytes as the header and starts with them.
    A signature with an empty header therefore matches at every position. *)
Theorem MatchesSignature_any_signature (sig : FileSignature)
    (e : FileCarvingEngine) object off size :
  0 <= off -> 0 <= size -> off + size <= vsize object ->
  signatures_ (AddSignature sig e) !! file_type sig = Some sig
  /\ MatchesSignature object off size (header sig)
     = Ret (bool_decide (vsize (header sig) <= size
                         /\ bytes_at object off (header sig) = header sig))
  /\ (header sig = [] ->
      MatchesSignature object off size (header sig) = Ret true).
Proof.
  intros Hoff Hsize Hfit.
  split; [apply AddSignature_lookup |].
  split; [now apply MatchesSignature_in_range |].
  intros Hempty. rewrite MatchesSignature_in_range by assumption.
  rewrite Hempty. now rewrite bool_decide_eq_true_2.
Qed.

(** The theorem at a signature that breaks every part of the invariant (no
    header, size bound 0, [has_footer] without a footer), on a window of
    three bytes. *)
Lemma MatchesSignature_any_signature_witness :
  let bad := mkFileSignature "Bad" ".bad" [] [] 0 true in
  let object := [0x00; 0x01; 0x02] in
  0 <= 0 /\ 0 <= 3 /\ 0 + 3 <= vsize object
  /\ signatures_ (AddSignature bad new_engine) !! file_type bad = Some bad
  /\ MatchesSignature object 0 3 (header bad)
     = Ret (bool_decide (vsize (header bad) <= 3
                         /\ bytes_at object 0 (header bad) = header bad))
  /\ (header bad = [] -> MatchesSignature object 0 3 (header bad) = Ret true).
Proof.
  intros bad object.
  assert (H0 : 0 <= 0) by lia.
  assert (H3 : 0 <= 3) by lia.
  assert (Hfit : 0 + 3 <= vsize object) by (vm_compute; discriminate).
  split; [exact H0 |]. split; [exact H3 |]. split; [exact Hfit |].
  exact (MatchesSignature_any_signature bad new_engine object 0 3 H0 H3 Hfit).
Defined.

(** C6 fails as stated: signatures that break the invariant are registered
    like any other and do match. One without a header matches at every
    position, also in an empty window; one whose size bound is smaller than
    its header matches wherever the header bytes are. *)
Lemma malformed_signature_matches :
  let bad := mkFileSignature "Bad" ".bad" [] [] 0 true in
  let tiny := mkFileSignature "Tiny" ".tny" [0x43; 0x53; 0x54] [] 2 false in
  let e := AddSignature tiny (AddSignature bad (Initialize new_engine).2) in
  (~ 1 <= vsize (header bad)
   /\ ~ vsize (header bad) < max_file_size bad
   /\ has_footer bad = true /\ footer bad = [])
  /\ ~ vsize (header tiny) < max_file_size tiny
  /\ signatures_ e !! "Bad" = Some bad
  /\ signatures_ e !! "Tiny" = Some tiny
  /\ MatchesSignature [0x00; 0x01; 0x02] 0 3 (header bad) = Ret true
  /\ MatchesSignature [0x00; 0x01; 0x02] 2 1 (header bad) = Ret true
  /\ MatchesSignature [] 0 0 (header bad) = Ret true
  /\ MatchesSignature [0x00; 0x43; 0x53; 0x54] 1 3 (header tiny) = Ret true.
Proof.
  intros bad tiny e.
  split; [repeat split; vm_compute; congruence |].
  split; [vm_compute; congruence |].
  split; [vm_compute; reflexivity |].
  split; [vm_compute; reflexivity |].
  repeat split.
Qed.

(** One turn of the loop of [FindFooter]. *)
Lemma FindFooter_loop_step object max_size (footer : list Z) i :
  FindFooter_loop object max_size footer i
  = if Z_lt_dec i (wrap (max_size - vsize footer)) then
      match MatchesSignature object i (wrap (max_size - i)) footer with
      | Ret true => Ret (wrap (i + vsize footer))
      | Ret false => FindFooter_loop object max_size footer (wrap (i + 1))
      | Fault off n => Fault off n
      end
    else Ret 0.
Proof.
  rewrite FindFooter_loop_equation_1 at 1.
  destruct (Z_lt_dec i (wrap (max_size - vsize footer))); [| reflexivity].
  cbn. destruct (MatchesSignature object i (wrap (max_size - i)) footer)
    as [[] |]; reflexivity.
Qed.

(** C4: with an empty footer [FindFooter] returns the not-found value 0 at
    once: the result is 0 for every object, start and limit, also for an
    object without a single readable byte, and it does not depend on the
    bytes. *)
Theorem FindFooter_empty_footer object start max_size :
  FindFooter object start max_size [] = Ret 0
  /\ FindFooter [] start max_size [] = Ret 0
  /\ forall object', FindFooter object' start max_size []
                     = FindFooter object start max_size [].
Proof. repeat split. Qed.

Lemma FindFooter_nonempty object start max_size (footer : list Z) :
  footer <> [] ->
  FindFooter object start max_size footer
  = FindFooter_loop object max_size footer start.
Proof. intros Hne. destruct footer; [congruence | reflexivity]. Qed.

(** *** The search inside a window that holds the footer's length

    [object] has at least [max_size] bytes and the footer is not longer than
    [max_size]: no subtraction wraps, and the loop visits the offsets
    [start <= i < max_size - footer.size()]. *)
Section InRange.

Variables (object : list Z) (max_size : Z) (footer : list Z).
Hypothesis footer_nonempty : footer <> [].
Hypothesis footer_fits : vsize footer <= max_size.
Hypothesis max_size_range : max_size < 2 ^ SIZE_BITS.
Hypothesis window_readable : max_size <= vsize object.

Let bound : Z := max_size - vsize footer.

Lemma FindFooter_bound : wrap (max_size - vsize footer) = bound.
Proof. apply wrap_small. pose proof (vsize_nonneg footer). lia. Qed.

Lemma FindFooter_loop_in_range i :
  0 <= i < bound ->
  FindFooter_loop object max_size footer i
  = if bool_decide (bytes_at object i footer = footer)
    then Ret (i + vsize footer)
    else FindFooter_loop object max_size footer (i + 1).
Proof.
  intros Hi. pose proof (vsize_nonneg footer) as Hlen.
  rewrite FindFooter_loop_step, FindFooter_bound.
  destruct (Z_lt_dec i bound) as [_ | Hge]; [| lia].
  rewrite !wrap_small by (unfold bound in *; lia).
  rewrite MatchesSignature_in_range by lia.
  destruct (bool_decide_reflect (bytes_at object i footer = footer))
    as [Heq | Hneq].
  - now rewrite bool_decide_eq_true_2 by (unfold bound in *; split; [lia | exact Heq]).
  - now rewrite bool_decide_eq_false_2 by tauto.
Qed.

Lemma FindFooter_loop_exit i :
  bound <= i -> FindFooter_loop object max_size footer i = Ret 0.
Proof.
  intros Hi. rewrite FindFooter_loop_step, FindFooter_bound.
  destruct (Z_lt_dec i bound); [lia | reflexivity].
Qed.

(** The loop returns the end of the first occurrence it visits. *)
Lemma FindFooter_loop_first i k :
  0 <= i <= k -> k < bound ->
  (forall j, i <= j < k -> bytes_at object j footer <> footer) ->
  bytes_at object k footer = footer ->
  FindFooter_loop object max_size footer i = Ret (k + vsize footer).
Proof.
  intros Hik Hk. remember (Z.to_nat (k - i)) as n eqn:Hn.
  revert i Hik Hn. induction n as [| n IH]; intros i Hik Hn Hnone Hocc.
  - assert (i = k) as -> by lia.
    rewrite FindFooter_loop_in_range by lia.
    now rewrite bool_decide_eq_true_2.
  - rewrite FindFooter_loop_in_range by lia.
    rewrite bool_decide_eq_false_2 by (apply Hnone; lia).
    apply IH; [lia | lia | | exact Hocc].
    intros j Hj. apply Hnone. lia.
Qed.

(** Without an occurrence at the visited offsets the loop returns 0. *)
Lemma FindFooter_loop_none i :
  0 <= i ->
  (forall j, i <= j < bound -> bytes_at object j footer <> footer) ->
  FindFooter_loop object max_size footer i = Ret 0.
Proof.
  intros Hi. remember (Z.to_nat (bound - i)) as n eqn:Hn.
  revert i Hi Hn. induction n as [| n IH]; intros i Hi Hn Hnone.
  - apply FindFooter_loop_exit. lia.
  - rewrite FindFooter_loop_in_range by lia.
    rewrite bool_decide_eq_false_2 by (apply Hnone; lia).
    apply IH; [lia | lia |].
    intros j Hj. apply Hnone. lia.
Qed.

(** What [FindFooter] computes in range: the end of the first occurrence
    that starts at [start] or later and ends strictly before [max_size]. *)
Lemma FindFooter_first start k :
  0 <= start <= k -> k + vsize footer < max_size ->
  (forall j, start <= j < k -> bytes_at object j footer <> footer) ->
  bytes_at object k footer = footer ->
  FindFooter object start max_size footer = Ret (k + vsize footer).
Proof.
  intros Hk Hend Hnone Hocc. rewrite FindFooter_nonempty by assumption.
  apply FindFooter_loop_first; try assumption. unfold bound. lia.
Qed.

(** An occurrence that ends exactly at [max_size] is never looked at. *)
Lemma FindFooter_none start :
  0 <= start ->
  (forall j, start <= j -> j + vsize footer < max_size ->
             bytes_at object j footer <> footer) ->
  FindFooter object start max_size footer = Ret 0.
Proof.
  intros Hstart Hnone. rewrite FindFooter_nonempty by assumption.
  apply FindFooter_loop_none; [assumption |].
  intros j Hj. apply Hnone; unfold bound in *; lia.
Qed.

End InRange.

(** *** The search in a window shorter than the footer

    [max_size - footer.size()] wraps around to a bound above [max_size], so
    the loop walks past the end of the window; from there on
    [max_size - i] wraps as well and passes the size test of
    [MatchesSignature]. *)
Section ShortWindow.

Variables (object : list Z) (max_size : Z) (footer : list Z).
Hypothesis window_short : 0 <= max_size < vsize footer.
Hypothesis footer_range : vsize footer < 2 ^ SIZE_BITS - 1.

Let bound : Z := 2 ^ SIZE_BITS + max_size - vsize footer.

Lemma FindFooter_bound_wraps : wrap (max_size - vsize footer) = bound.
Proof.
  unfold wrap, bound.
  replace (max_size - vsize footer)
    with (max_size - vsize footer + 2 ^ SIZE_BITS + (-1) * 2 ^ SIZE_BITS)
    by lia.
  rewrite Z.mod_add by discriminate. rewrite Z.mod_small; lia.
Qed.

Lemma FindFooter_loop_inside i :
  0 <= i <= max_size ->
  FindFooter_loop object max_size footer i
  = FindFooter_loop object max_size footer (i + 1).
Proof.
  intros Hi. rewrite FindFooter_loop_step, FindFooter_bound_wraps.
  destruct (Z_lt_dec i bound) as [_ | Hge]; [| unfold bound in *; lia].
  rewrite (wrap_small (max_size - i)), (wrap_small (i + 1)) by lia.
  unfold MatchesSignature.
  destruct (Z.ltb_spec (max_size - i) (vsize footer)); [reflexivity | lia].
Qed.

Lemma FindFooter_loop_past_window :
  FindFooter_loop object max_size footer (max_size + 1)
  = match memcmp_eq object (max_size + 1) footer with
    | Ret true => Ret (wrap (max_size + 1 + vsize footer))
    | Ret false => FindFooter_loop object max_size footer
                     (wrap (max_size + 1 + 1))
    | Fault off n => Fault off n
    end.
Proof.
  rewrite FindFooter_loop_step, FindFooter_bound_wraps.
  destruct (Z_lt_dec (max_size + 1) bound) as [_ | Hge];
    [| unfold bound in *; lia].
  assert (Hsize : wrap (max_size - (max_size + 1)) = 2 ^ SIZE_BITS - 1)
    by now replace (max_size - (max_size + 1)) with (-1) by lia.
  rewrite Hsize. unfold MatchesSignature.
  destruct (Z.ltb_spec (2 ^ SIZE_BITS - 1) (vsize footer)) as [Hlt | _];
    [lia | reflexivity].
Qed.

(** From any start inside the window the loop reaches offset
    [max_size + 1], the first one at which it compares bytes. *)
Lemma FindFooter_loop_leaves_window i :
  0 <= i <= max_size + 1 ->
  FindFooter_loop object max_size footer i
  = FindFooter_loop object max_size footer (max_size + 1).
Proof.
  intros Hi. remember (Z.to_nat (max_size + 1 - i)) as n eqn:Hn.
  revert i Hi Hn. induction n as [| n IH]; intros i Hi Hn.
  - now assert (i = max_size + 1) as -> by lia.
  - rewrite FindFooter_loop_inside by lia. apply IH; lia.
Qed.

Lemma footer_nonempty_short : footer <> [].
Proof.
  intros Hnil. pose proof window_short as Hshort.
  rewrite Hnil in Hshort. unfold vsize in Hshort. simpl in Hshort. lia.
Qed.

(** When the object ends with the window, the search reads outside it. *)
Lemma FindFooter_short_window_faults start :
  0 <= start <= max_size + 1 -> vsize object = max_size ->
  FindFooter object start max_size footer
  = Fault (max_size + 1) (vsize footer).
Proof.
  intros Hstart Hobj.
  rewrite FindFooter_nonempty by apply footer_nonempty_short.
  rewrite FindFooter_loop_leaves_window by assumption.
  rewrite FindFooter_loop_past_window.
  now rewrite memcmp_eq_out_of_range
    by (apply footer_nonempty_short || lia).
Qed.

(** When the object goes on and holds the footer right there, the search
    reports it, although it lies outside the window. *)
Lemma FindFooter_short_window_false_positive start :
  0 <= start <= max_size + 1 ->
  max_size + 1 + vsize footer <= vsize object < 2 ^ SIZE_BITS ->
  bytes_at object (max_size + 1) footer = footer ->
  FindFooter object start max_size footer
  = Ret (max_size + 1 + vsize footer).
Proof.
  intros Hstart Hobj Hocc.
  rewrite FindFooter_nonempty by apply footer_nonempty_short.
  rewrite FindFooter_loop_leaves_window by assumption.
  rewrite FindFooter_loop_past_window.
  rewrite memcmp_eq_in_range by lia.
  rewrite bool_decide_eq_true_2 by exact Hocc.
  f_equal. apply wrap_small. lia.
Qed.

End ShortWindow.

(** C2 at a footer that ends where the searched range ends: the JPEG footer
    fills the window [0, 2), or its last two bytes [1, 3), and [FindFooter]
    returns the not-found value 0; one more byte in the window and the same
    footer is found. The loop stops at [i < max_size - footer.size()] and so
    leaves out the last offset at which the footer still fits. *)
Theorem FindFooter_misses_footer_at_limit :
  let footer := footer FileSignatures.JPEG in
  bytes_at [0xFF; 0xD9] 0 footer = footer
  /\ FindFooter [0xFF; 0xD9] 0 2 footer = Ret 0
  /\ bytes_at [0x00; 0xFF; 0xD9] 1 footer = footer
  /\ FindFooter [0x00; 0xFF; 0xD9] 0 3 footer = Ret 0
  /\ FindFooter [0x00; 0xFF; 0xD9; 0x00] 0 4 footer = Ret 3.
Proof.
  intros footer. repeat split; vm_compute; reflexivity.
Qed.

(** C3 at a window of one byte and the two-byte JPEG footer: the bound
    [max_size - footer.size()] wraps around, and the search compares the
    bytes at offset 2. When the object is just the window this is a read
    outside it; when the object goes on and holds the footer there, the
    search returns 4, the end of a footer that is not in the window. *)
Theorem FindFooter_short_window_reads_outside :
  let footer := footer FileSignatures.JPEG in
  vsize [0x00] < vsize footer
  /\ FindFooter [0x00] 0 1 footer = Fault 2 2
  /\ FindFooter [0x00; 0x00; 0xFF; 0xD9] 0 1 footer = Ret 4.
Proof.
  intros footer.
  assert (Hshort : 0 <= 1 < vsize footer) by (vm_compute; split; congruence).
  assert (Hrange : vsize footer < 2 ^ SIZE_BITS - 1) by reflexivity.
  assert (Hstart : 0 <= 0 <= 1 + 1) by lia.
  split; [reflexivity |].
  split.
  - now apply (FindFooter_short_window_faults [0x00] 1 footer Hshort Hrange).
  - apply (FindFooter_short_window_false_positive
             [0x00; 0x00; 0xFF; 0xD9] 1 footer Hshort Hrange 0 Hstart);
      [vm_compute; split; congruence | reflexivity].
Qed.

End Matching.

(** * Further properties *)

(** ** The registry under [AddSignature] and [LoadDefaultSignatures] *)

Section RegistryLaws.

Implicit Types (e : FileCarvingEngine) (sig : FileSignature) (t : string).

(** X1: what is registered can be looked up, and nothing else moves. After
    [AddSignature sig] the entry of [file_type sig] is [sig], every other
    entry is the one from before, and the stats and the scan limit are
    untouched. *)
Theorem AddSignature_lookup_frame sig e t :
  signatures_ (AddSignature sig e) !! t
  = (if decide (t = file_type sig) then Some sig else signatures_ e !! t)
  /\ stats_ (AddSignature sig e) = stats_ e
  /\ max_scan_size_ (AddSignature sig e) = max_scan_size_ e.
Proof.
  split; [| split; reflexivity].
  destruct (decide (t = file_type sig)) as [-> | Hne].
  - apply AddSignature_lookup.
  - now apply AddSignature_lookup_ne.
Qed.

(** X2: registering under a [file_type] that is taken replaces the earlier
    signature without a trace: the engine is the one the second call alone
    would have produced. *)
Theorem AddSignature_replaces sig1 sig2 e :
  file_type sig1 = file_type sig2 ->
  AddSignature sig2 (AddSignature sig1 e) = AddSignature sig2 e
  /\ signatures_ (AddSignature sig2 (AddSignature sig1 e)) !! file_type sig1
     = Some sig2.
Proof.
  intros Hsame. unfold AddSignature. simpl. rewrite Hsame.
  rewrite insert_insert_eq. split; [reflexivity |].
  apply lookup_insert_eq.
Qed.

Lemma AddSignature_replaces_witness :
  let custom :=
    mkFileSignature "JPEG Image" ".jpeg" [0xFF; 0xD8] [] 1024 false in
  file_type FileSignatures.JPEG = file_type custom
  /\ AddSignature custom (AddSignature FileSignatures.JPEG new_engine)
     = AddSignature custom new_engine
  /\ signatures_ (AddSignature custom
                    (AddSignature FileSignatures.JPEG new_engine))
       !! file_type FileSignatures.JPEG
     = Some custom.
Proof.
  intros custom.
  assert (Hsame : file_type FileSignatures.JPEG = file_type custom)
    by reflexivity.
  split; [exact Hsame |].
  exact (AddSignature_replaces FileSignatures.JPEG custom new_engine Hsame).
Defined.

(** X3: signatures of different types can be registered in either order:
    every lookup gives the same, and the supported types are the same up to
    their order in the list. *)
Theorem AddSignature_order_irrelevant sig1 sig2 e :
  file_type sig1 <> file_type sig2 ->
  (forall t, signatures_ (AddSignature sig1 (AddSignature sig2 e)) !! t
             = signatures_ (AddSignature sig2 (AddSignature sig1 e)) !! t)
  /\ GetSupportedFileTypes (AddSignature sig1 (AddSignature sig2 e))
     ≡ₚ GetSupportedFileTypes (AddSignature sig2 (AddSignature sig1 e)).
Proof.
  intros Hne.
  assert (Heq : signatures_ (AddSignature sig1 (AddSignature sig2 e))
                = signatures_ (AddSignature sig2 (AddSignature sig1 e)))
    by (simpl; now apply insert_insert_ne).
  split; [intros t; now rewrite Heq |].
  unfold GetSupportedFileTypes. now rewrite Heq.
Qed.

Lemma AddSignature_order_irrelevant_witness :
  let e := new_engine in
  file_type FileSignatures.ZIP <> file_type FileSignatures.DOCX
  /\ (forall t,
        signatures_ (AddSignature FileSignatures.ZIP
                       (AddSignature FileSignatures.DOCX e)) !! t
        = signatures_ (AddSignature FileSignatures.DOCX
                         (AddSignature FileSignatures.ZIP e)) !! t)
  /\ GetSupportedFileTypes (AddSignature FileSignatures.ZIP
                              (AddSignature FileSignatures.DOCX e))
     ≡ₚ GetSupportedFileTypes (AddSignature FileSignatures.DOCX
                                 (AddSignature FileSignatures.ZIP e)).
Proof.
  intros e.
  assert (Hne : file_type FileSignatures.ZIP <> file_type FileSignatures.DOCX)
    by discriminate.
  split; [exact Hne |].
  exact (AddSignature_order_irrelevant
           FileSignatures.ZIP FileSignatures.DOCX e Hne).
Defined.

Lemma LoadDefaultSignatures_fold_frame (sigs : list FileSignature) e :
  stats_ (fold_left (fun acc sig => AddSignature sig acc) sigs e) = stats_ e
  /\ max_scan_size_ (fold_left (fun acc sig => AddSignature sig acc) sigs e)
     = max_scan_size_ e.
Proof.
  revert e. induction sigs as [| sig sigs IH]; intros e; simpl; [easy |].
  destruct (IH (AddSignature sig e)) as [-> ->]. easy.
Qed.

Lemma LoadDefaultSignatures_entries e :
  (forall sig, sig ∈ default_signatures ->
     signatures_ (LoadDefaultSignatures e) !! file_type sig = Some sig)
  /\ (forall t, t ∉ (file_type <$> default_signatures) ->
        signatures_ (LoadDefaultSignatures e) !! t = signatures_ e !! t)
  /\ stats_ (LoadDefaultSignatures e) = stats_ e
  /\ max_scan_size_ (LoadDefaultSignatures e) = max_scan_size_ e.
Proof.
  split; [| split].
  - intros sig Hin.
    now apply LoadDefaultSignatures_fold_lookup;
      [apply default_signatures_NoDup |].
  - intros t Hnot. now apply LoadDefaultSignatures_fold_other.
  - apply LoadDefaultSignatures_fold_frame.
Qed.

(** X4: [LoadDefaultSignatures] on an engine that already holds signatures.
    Every default signature ends up registered under its [file_type], also
    where a signature of that name was there before; entries under other
    names stay as they were, and so do the stats and the scan limit. *)
Theorem LoadDefaultSignatures_lookup e :
  (forall sig, sig ∈ default_signatures ->
     signatures_ (LoadDefaultSignatures e) !! file_type sig = Some sig)
  /\ (forall t, t ∉ (file_type <$> default_signatures) ->
        signatures_ (LoadDefaultSignatures e) !! t = signatures_ e !! t)
  /\ stats_ (LoadDefaultSignatures e) = stats_ e
  /\ max_scan_size_ (LoadDefaultSignatures e) = max_scan_size_ e.
Proof. exact (LoadDefaultSignatures_entries e). Qed.

Lemma LoadDefaultSignatures_lookup_witness :
  let fake_jpeg :=
    mkFileSignature "JPEG Image" ".jpeg" [0xFF; 0xD8] [] 1024 false in
  let custom :=
    mkFileSignature "Custom Type" ".cst" [0x43; 0x53; 0x54] [] 1024 false in
  let e := AddSignature custom (AddSignature fake_jpeg new_engine) in
  (FileSignatures.JPEG ∈ default_signatures
   /\ signatures_ (LoadDefaultSignatures e) !! "JPEG Image"
      = Some FileSignatures.JPEG)
  /\ (("Custom Type" ∉ (file_type <$> default_signatures))
      /\ signatures_ (LoadDefaultSignatures e) !! "Custom Type"
         = signatures_ e !! "Custom Type").
Proof.
  intros fake_jpeg custom e.
  assert (Hin : FileSignatures.JPEG ∈ default_signatures)
    by (apply list_elem_of_here).
  assert (Hnot : "Custom Type" ∉ (file_type <$> default_signatures))
    by (apply (bool_decide_unpack _); vm_compute; exact I).
  split; split; try assumption.
  - exact (proj1 (LoadDefaultSignatures_lookup e) FileSignatures.JPEG Hin).
  - exact (proj1 (proj2 (LoadDefaultSignatures_lookup e)) "Custom Type" Hnot).
Defined.


End RegistryLaws.

(** ** Sequences of calls on a fresh engine *)

Section Clients.

Implicit Types (calls : list api_call) (st : FileCarvingEngine * Storage).

Lemma perform_all_snoc calls call st :
  perform_all (calls ++ [call]) st = perform call (perform_all calls st).
Proof. unfold perform_all. now rewrite fold_left_app. Qed.

(** X6: whatever a client calls and in whatever order, the stats of an engine
    that started fresh read all zero, the storage is never written, and every
    signature in the registry sits under its own [file_type]. *)
Theorem api_stats_storage_registry calls (disk : Storage) :
  let st := perform_all calls (new_engine, disk) in
  GetStats st.1 = zero_stats
  /\ st.2 = disk
  /\ map_Forall (fun t sig => file_type sig = t) (signatures_ st.1).
Proof.
  induction calls as [| call calls IH] using rev_ind; simpl.
  - repeat split. apply map_Forall_empty.
  - rewrite perform_all_snoc. simpl in IH.
    destruct (perform_all calls (new_engine, disk)) as [e d].
    destruct IH as (Hstats & Hdisk & Hkeys). simpl in Hstats, Hdisk, Hkeys.
    destruct call as [| sig | size | dev out];
      cbn [perform fst snd Initialize CarveFiles AddSignature SetMaxScanSize
           GetStats stats_ signatures_].
    + destruct (LoadDefaultSignatures_entries e) as (Hdef & Hother & Hs & _).
      split; [unfold GetStats in *; congruence |]. split; [assumption |].
      intros t sig Hsig.
      destruct (decide (t ∈ (file_type <$> default_signatures))) as [Hin | Hnot].
      * apply list_elem_of_fmap in Hin. destruct Hin as (dsig & -> & Hin).
        rewrite (Hdef dsig Hin) in Hsig. congruence.
      * rewrite (Hother t Hnot) in Hsig. now apply Hkeys.
    + split; [assumption |]. split; [assumption |].
      now apply map_Forall_insert_2.
    + easy.
    + easy.
Qed.

(** X7: the scan limit is the argument of the last [SetMaxScanSize] call, and
    the 1 TB of the constructor when there was none; no other call touches
    it. *)
Theorem api_max_scan_size calls (disk : Storage) :
  max_scan_size_ (perform_all calls (new_engine, disk)).1
  = default (1024 * 1024 * 1024 * 1024)
      (last (omap (fun call => match call with
                               | CallSetMaxScanSize size => Some size
                               | _ => None
                               end) calls)).
Proof.
  induction calls as [| call calls IH] using rev_ind; [reflexivity |].
  rewrite perform_all_snoc, omap_app.
  destruct (perform_all calls (new_engine, disk)) as [e d]. cbn [fst] in IH.
  destruct call as [| sig | size | dev out];
    cbn [perform fst snd Initialize CarveFiles AddSignature SetMaxScanSize
         max_scan_size_ omap list_omap];
    rewrite ?app_nil_r, ?last_snoc.
  - rewrite <- IH. apply LoadDefaultSignatures_entries.
  - exact IH.
  - reflexivity.
  - exact IH.
Qed.

(** X8: the supported types are exactly the ones the calls registered: the
    default names once [Initialize] was called, and the [file_type] of every
    signature handed to [AddSignature]. Nothing is ever removed. *)
Theorem api_supported_types calls (disk : Storage) t :
  t ∈ GetSupportedFileTypes (perform_all calls (new_engine, disk)).1
  <-> (CallInitialize ∈ calls /\ t ∈ (file_type <$> default_signatures))
      \/ (exists sig, CallAddSignature sig ∈ calls /\ file_type sig = t).
Proof.
  induction calls as [| call calls IH] using rev_ind.
  - simpl. rewrite supported_elem. simpl. rewrite lookup_empty. split.
    + intros [x Hx]. discriminate.
    + intros [[Hin _] | (sig & Hin & _)]; now apply elem_of_nil in Hin.
  - rewrite perform_all_snoc.
    destruct (perform_all calls (new_engine, disk)) as [e d]. cbn [fst] in IH.
    assert (Hcalls : forall c : api_call,
              c ∈ (calls ++ [call])%list <-> c ∈ calls \/ c = call).
    { intros c. rewrite elem_of_app, list_elem_of_singleton. tauto. }
    rewrite Hcalls.
    setoid_rewrite Hcalls.
    destruct call as [| sig | size | dev out];
      cbn [perform fst snd Initialize CarveFiles SetMaxScanSize].
    + unfold LoadDefaultSignatures.
      rewrite supported_elem, LoadDefaultSignatures_fold, <- supported_elem, IH.
      split.
      * intros [Hin | [[Hinit Hin] | (sig & Hsig & Ht)]]; eauto 6.
      * intros [[[Hinit | _] Hin] | (sig & [Hsig | Heq] & Ht)];
          eauto 6; discriminate.
    + rewrite supported_elem. simpl.
      destruct (decide (t = file_type sig)) as [-> | Hne].
      * rewrite lookup_insert_eq. split; [| eauto].
        intros _. right. exists sig. eauto.
      * rewrite lookup_insert_ne by congruence.
        rewrite <- supported_elem, IH. split.
        -- intros [[Hinit Hin] | (s & Hs & Ht)]; eauto 6.
        -- intros [[[Hinit | Heq] Hin] | (s & [Hs | Heq] & Ht)];
             eauto 6; try discriminate.
           injection Heq as ->. congruence.
    + rewrite IH. split.
      * intros [[Hinit Hin] | (s & Hs & Ht)]; eauto 6.
      * intros [[[Hinit | Heq] Hin] | (s & [Hs | Heq] & Ht)];
          eauto 6; discriminate.
    + rewrite IH. split.
      * intros [[Hinit Hin] | (s & Hs & Ht)]; eauto 6.
      * intros [[[Hinit | Heq] Hin] | (s & [Hs | Heq] & Ht)];
          eauto 6; discriminate.
Qed.

End Clients.

(** ** More on byte matching *)

Section MatchingLaws.

Implicit Types (object signature : list Z) (off size start max_size i : Z).

Abbreviation bytes_at object off signature :=
  (take (length signature) (drop (Z.to_nat off) object)).

Lemma bytes_at_split object off signature :
  0 <= off <= vsize object ->
  bytes_at object off signature = signature
  <-> exists before after,
        object = (before ++ signature ++ after)%list /\ vsize before = off.
Proof.
  intros Hoff. split.
  - intros Heq.
    exists (take (Z.to_nat off) object),
           (drop (length signature) (drop (Z.to_nat off) object)).
    assert (Hlen : (Z.to_nat off <= length object)%nat)
      by (unfold vsize in Hoff; lia).
    split.
    + rewrite <- Heq at 1. now rewrite take_drop, take_drop.
    + unfold vsize. rewrite length_take. lia.
  - intros (before & after & -> & Hlen). unfold vsize in Hlen.
    replace (Z.to_nat off) with (length before) by lia.
    now rewrite drop_app_length, take_app_length.
Qed.

(** X9: a signature matches wherever its bytes are. Inside the object,
    [MatchesSignature] answers [true] exactly when [size] covers the signature
    and the object reads: [off] bytes, the signature, the rest. When it does
    read so, the answer is [true] for every [size] from the signature's
    length up, also one that claims more bytes than the object has. *)
Theorem MatchesSignature_splits object off size signature :
  0 <= off ->
  (off + size <= vsize object ->
   MatchesSignature object off size signature = Ret true
   <-> vsize signature <= size
       /\ exists before after,
            object = (before ++ signature ++ after)%list
            /\ vsize before = off)
  /\ (forall before after,
        object = (before ++ signature ++ after)%list ->
        vsize before = off -> vsize signature <= size ->
        MatchesSignature object off size signature = Ret true).
Proof.
  intros Hoff. split.
  - intros Hfit. rewrite MatchesSignature_in_range by assumption.
    pose proof (vsize_nonneg signature) as Hlen. split.
    + intros Hret. injection Hret as Hret.
      apply bool_decide_eq_true_1 in Hret. destruct Hret as [Hsize Hocc].
      split; [assumption |]. apply bytes_at_split; [lia | assumption].
    + intros [Hsize Hocc]. rewrite bool_decide_eq_true_2; [reflexivity |].
      split; [assumption |]. apply bytes_at_split; [lia | assumption].
  - intros before after Hobj Hlen Hsize. unfold MatchesSignature.
    destruct (Z.ltb_spec size (vsize signature)) as [Hlt | _]; [lia |].
    rewrite memcmp_eq_in_range.
    + rewrite bool_decide_eq_true_2; [reflexivity |].
      apply bytes_at_split; [| eauto].
      rewrite Hobj. unfold vsize in *. rewrite !length_app. lia.
    + assumption.
    + rewrite Hobj. unfold vsize in *. rewrite !length_app. lia.
Qed.

Lemma MatchesSignature_splits_witness :
  let object := [0x00; 0xFF; 0xD8; 0xFF; 0xE0] in
  let signature := header FileSignatures.JPEG in
  0 <= 1
  /\ (1 + 4 <= vsize object ->
      MatchesSignature object 1 4 signature = Ret true
      <-> vsize signature <= 4
          /\ exists before after,
               object = (before ++ signature ++ after)%list
               /\ vsize before = 1)
  /\ (forall before after,
        object = (before ++ signature ++ after)%list ->
        vsize before = 1 -> vsize signature <= 4 ->
        MatchesSignature object 1 4 signature = Ret true).
Proof.
  intros object signature.
  assert (Hoff : 0 <= 1) by lia.
  split; [exact Hoff |].
  exact (MatchesSignature_splits object 1 4 signature Hoff).
Defined.

(** *** [FindFooter] inside a window that holds the footer's length *)
Section InRangeLaws.

Variables (object : list Z) (max_size : Z) (footer : list Z).
Hypothesis footer_nonempty : footer <> [].
Hypothesis footer_fits : vsize footer <= max_size.
Hypothesis max_size_range : max_size < 2 ^ SIZE_BITS.
Hypothesis window_readable : max_size <= vsize object.

Lemma FindFooter_loop_sound i :
  0 <= i ->
  exists r,
    FindFooter_loop object max_size footer i = Ret r
    /\ ((r = 0
         /\ forall j, i <= j < max_size - vsize footer ->
                      bytes_at object j footer <> footer)
        \/ (exists k,
              r = k + vsize footer
              /\ i <= k < max_size - vsize footer
              /\ bytes_at object k footer = footer
              /\ forall j, i <= j < k -> bytes_at object j footer <> footer)).
Proof.
  intros Hi.
  remember (Z.to_nat (max_size - vsize footer - i)) as n eqn:Hn.
  revert i Hi Hn. induction n as [| n IH]; intros i Hi Hn.
  - exists 0. split.
    + apply FindFooter_loop_exit; (assumption || lia).
    + left. split; [reflexivity |]. intros j Hj. lia.
  - rewrite FindFooter_loop_in_range by (assumption || lia).
    destruct (bool_decide_reflect (bytes_at object i footer = footer))
      as [Hocc | Hno].
    + exists (i + vsize footer). split; [reflexivity |].
      right. exists i. split_and!; try assumption; lia.
    + destruct (IH (i + 1)) as (r & Hr & Hcases); [lia | lia |].
      exists r. split; [exact Hr |].
      destruct Hcases as [[-> Hnone] | (k & -> & Hk & Hocc & Hnone)].
      * left. split; [reflexivity |]. intros j Hj.
        destruct (decide (j = i)) as [-> | Hne]; [assumption |].
        apply Hnone. lia.
      * right. exists k. split_and!; try assumption; try lia.
        intros j Hj.
        destruct (decide (j = i)) as [-> | Hne]; [assumption |].
        apply Hnone. lia.
Qed.

End InRangeLaws.

(** X10: [FindFooter] in a window that is readable and not shorter than the
    footer. The search never faults. It returns 0 exactly when no occurrence
    from [start] on ends strictly before [max_size]; otherwise it returns the
    offset [r] right after the first such occurrence, which lies in
    [start + footer.size() <= r < max_size]. An occurrence that ends at
    [max_size] itself does not count. *)
Theorem FindFooter_in_range object start max_size (footer : list Z) :
  footer <> [] -> vsize footer <= max_size < 2 ^ SIZE_BITS ->
  max_size <= vsize object -> 0 <= start ->
  exists r,
    FindFooter object start max_size footer = Ret r
    /\ ((r = 0
         /\ forall j, start <= j -> j + vsize footer < max_size ->
                      bytes_at object j footer <> footer)
        \/ (start + vsize footer <= r < max_size
            /\ bytes_at object (r - vsize footer) footer = footer
            /\ forall j, start <= j < r - vsize footer ->
                         bytes_at object j footer <> footer)).
Proof.
  intros Hne [Hfit Hrange] Hread Hstart.
  rewrite FindFooter_nonempty by assumption.
  destruct (FindFooter_loop_sound object max_size footer Hfit Hrange Hread
              start Hstart) as (r & Hr & Hcases).
  exists r. split; [exact Hr |].
  destruct Hcases as [[-> Hnone] | (k & -> & Hk & Hocc & Hnone)].
  - left. split; [reflexivity |]. intros j Hj Hend. apply Hnone. lia.
  - right. replace (k + vsize footer - vsize footer) with k by lia.
    split_and!; try assumption; lia.
Qed.

Lemma FindFooter_in_range_witness :
  let object := [0x00; 0xFF; 0xD9; 0x00] in
  let footer := footer FileSignatures.JPEG in
  footer <> [] /\ vsize footer <= 4 < 2 ^ SIZE_BITS
  /\ 4 <= vsize object /\ 0 <= 0
  /\ exists r,
       FindFooter object 0 4 footer = Ret r
       /\ ((r = 0
            /\ forall j, 0 <= j -> j + vsize footer < 4 ->
                         bytes_at object j footer <> footer)
           \/ (0 + vsize footer <= r < 4
               /\ bytes_at object (r - vsize footer) footer = footer
               /\ forall j, 0 <= j < r - vsize footer ->
                            bytes_at object j footer <> footer)).
Proof.
  intros object footer.
  assert (Hne : footer <> []) by discriminate.
  assert (Hfit : vsize footer <= 4 < 2 ^ SIZE_BITS)
    by (split; [vm_compute; discriminate | reflexivity]).
  assert (Hread : 4 <= vsize object) by (vm_compute; discriminate).
  assert (Hstart : 0 <= 0) by lia.
  repeat (split; [assumption |]).
  exact (FindFooter_in_range object 0 4 footer Hne Hfit Hread Hstart).
Defined.

(** *** [FindFooter] in a window shorter than the footer *)
Section ShortWindowLaws.

Variables (object : list Z) (max_size : Z) (footer : list Z).
Hypothesis window_short : 0 <= max_size < vsize footer.
Hypothesis footer_range : vsize footer < 2 ^ SIZE_BITS - 1.
Hypothesis object_range : vsize object + 1 < 2 ^ SIZE_BITS.

(** Past the window the size handed to [MatchesSignature] has wrapped, and
    every turn of the loop compares bytes. *)
Lemma FindFooter_loop_beyond_step i :
  max_size < i < 2 ^ SIZE_BITS + max_size - vsize footer ->
  FindFooter_loop object max_size footer i
  = match memcmp_eq object i footer with
    | Ret true => Ret (wrap (i + vsize footer))
    | Ret false => FindFooter_loop object max_size footer (i + 1)
    | Fault off n => Fault off n
    end.
Proof.
  intros Hi.
  rewrite FindFooter_loop_step, FindFooter_bound_wraps by assumption.
  destruct (Z_lt_dec i (2 ^ SIZE_BITS + max_size - vsize footer))
    as [_ | Hge]; [| lia].
  assert (Hsize : wrap (max_size - i) = 2 ^ SIZE_BITS + max_size - i).
  { unfold wrap.
    replace (max_size - i)
      with (2 ^ SIZE_BITS + max_size - i + (-1) * 2 ^ SIZE_BITS) by lia.
    rewrite Z.mod_add by discriminate. apply Z.mod_small. lia. }
  rewrite Hsize, (wrap_small (i + 1)) by lia. unfold MatchesSignature.
  destruct (Z.ltb_spec (2 ^ SIZE_BITS + max_size - i) (vsize footer));
    [lia | reflexivity].
Qed.

Lemma FindFooter_loop_beyond i :
  max_size < i < 2 ^ SIZE_BITS + max_size - vsize footer ->
  (exists off, FindFooter_loop object max_size footer i
               = Fault off (vsize footer)
               /\ max_size < off /\ vsize object < off + vsize footer)
  \/ (exists r, FindFooter_loop object max_size footer i = Ret r
                /\ max_size + vsize footer < r
                /\ bytes_at object (r - vsize footer) footer = footer).
Proof.
  intros Hi.
  remember (Z.to_nat (vsize object + 1 - vsize footer - i)) as n eqn:Hn.
  revert i Hi Hn. induction n as [| n IH]; intros i Hi Hn;
    rewrite FindFooter_loop_beyond_step by assumption.
  - left. exists i. rewrite memcmp_eq_out_of_range.
    + split; [reflexivity | lia].
    + now apply (footer_nonempty_short max_size).
    + lia.
  - rewrite memcmp_eq_in_range by lia.
    destruct (bool_decide_reflect (bytes_at object i footer = footer))
      as [Hocc | Hno].
    + right. exists (i + vsize footer). rewrite wrap_small by lia.
      split; [reflexivity |]. split; [lia |].
      now replace (i + vsize footer - vsize footer) with i by lia.
    + apply IH; lia.
Qed.

End ShortWindowLaws.

(** X11: [FindFooter] in a window shorter than the footer never gives the
    answer that would be right, 0 for not found. The loop bound wraps around
    and the search runs on behind the window: it ends in a read outside the
    object, or it returns the end of a footer that lies behind the window.
    When the object ends with the window, the very first comparison, at
    [max_size + 1], is such a read. *)
Theorem FindFooter_short_window object start max_size (footer : list Z) :
  0 <= max_size < vsize footer -> vsize footer < 2 ^ SIZE_BITS - 1 ->
  vsize object + 1 < 2 ^ SIZE_BITS -> 0 <= start <= max_size + 1 ->
  FindFooter object start max_size footer <> Ret 0
  /\ ((exists off, FindFooter object start max_size footer
                   = Fault off (vsize footer)
                   /\ max_size < off /\ vsize object < off + vsize footer)
      \/ (exists r, FindFooter object start max_size footer = Ret r
                    /\ max_size + vsize footer < r
                    /\ bytes_at object (r - vsize footer) footer = footer))
  /\ (vsize object = max_size ->
      FindFooter object start max_size footer
      = Fault (max_size + 1) (vsize footer)).
Proof.
  intros Hshort Hfooter Hobject Hstart.
  assert (Hcases :
    (exists off, FindFooter object start max_size footer
                 = Fault off (vsize footer)
                 /\ max_size < off /\ vsize object < off + vsize footer)
    \/ (exists r, FindFooter object start max_size footer = Ret r
                  /\ max_size + vsize footer < r
                  /\ bytes_at object (r - vsize footer) footer = footer)).
  { rewrite FindFooter_nonempty
      by now apply (footer_nonempty_short max_size).
    rewrite (FindFooter_loop_leaves_window object max_size footer)
      by assumption.
    apply FindFooter_loop_beyond; (assumption || lia). }
  split; [| split; [exact Hcases |]].
  - destruct Hcases as [(off & -> & _) | (r & -> & Hr & _)];
      [discriminate |].
    pose proof (vsize_nonneg footer). intros Heq. injection Heq as ->. lia.
  - intros Hends. now apply FindFooter_short_window_faults.
Qed.

Lemma FindFooter_short_window_witness :
  let object := [0x00] in
  let footer := footer FileSignatures.JPEG in
  0 <= 1 < vsize footer /\ vsize footer < 2 ^ SIZE_BITS - 1
  /\ vsize object + 1 < 2 ^ SIZE_BITS /\ 0 <= 0 <= 1 + 1
  /\ FindFooter object 0 1 footer <> Ret 0
  /\ ((exists off, FindFooter object 0 1 footer = Fault off (vsize footer)
                   /\ 1 < off /\ vsize object < off + vsize footer)
      \/ (exists r, FindFooter object 0 1 footer = Ret r
                    /\ 1 + vsize footer < r
                    /\ bytes_at object (r - vsize footer) footer = footer))
  /\ (vsize object = 1 ->
      FindFooter object 0 1 footer = Fault (1 + 1) (vsize footer)).
Proof.
  intros object footer.
  assert (Hshort : 0 <= 1 < vsize footer) by (vm_compute; split; congruence).
  assert (Hfooter : vsize footer < 2 ^ SIZE_BITS - 1) by reflexivity.
  assert (Hobject : vsize object + 1 < 2 ^ SIZE_BITS) by reflexivity.
  assert (Hstart : 0 <= 0 <= 1 + 1) by lia.
  repeat (split; [assumption |]).
  exact (FindFooter_short_window object 0 1 footer
           Hshort Hfooter Hobject Hstart).
Defined.

(** *** What the search looks at *)

Lemma bytes_at_agree object1 object2 off (signature : list Z) :
  0 <= off ->
  (forall k, off <= k < off + vsize signature ->
             object1 !! Z.to_nat k = object2 !! Z.to_nat k) ->
  bytes_at object1 off signature = bytes_at object2 off signature.
Proof.
  intros Hoff Hagree. apply list_eq. intros n.
  destruct (decide (n < length signature)%nat) as [Hlt | Hge].
  - rewrite !lookup_take_lt, !lookup_drop by assumption.
    replace (Z.to_nat off + n)%nat with (Z.to_nat (off + Z.of_nat n)) by lia.
    apply Hagree. unfold vsize. lia.
  - now rewrite !lookup_take_ge by lia.
Qed.

(** X12: in a readable window not shorter than the footer, the result of
    [FindFooter] depends on the bytes at the offsets
    [start <= k < max_size - 1] only: bytes before [start], the last byte of
    the window and everything behind it never make a difference. *)
Theorem FindFooter_reads_window_only object1 object2 start max_size
    (footer : list Z) :
  footer <> [] -> vsize footer <= max_size < 2 ^ SIZE_BITS ->
  max_size <= vsize object1 -> max_size <= vsize object2 -> 0 <= start ->
  (forall k, start <= k < max_size - 1 ->
             object1 !! Z.to_nat k = object2 !! Z.to_nat k) ->
  FindFooter object1 start max_size footer
  = FindFooter object2 start max_size footer.
Proof.
  intros Hne [Hfit Hrange] Hread1 Hread2 Hstart Hagree.
  rewrite !FindFooter_nonempty by assumption.
  assert (Hloop : forall n i, n = Z.to_nat (max_size - vsize footer - i) ->
            start <= i ->
            FindFooter_loop object1 max_size footer i
            = FindFooter_loop object2 max_size footer i).
  { induction n as [| n IH]; intros i Hn Hi.
    - now rewrite (FindFooter_loop_exit object1), (FindFooter_loop_exit object2)
        by (assumption || lia).
    - rewrite (FindFooter_loop_in_range object1 max_size footer),
        (FindFooter_loop_in_range object2 max_size footer)
        by (assumption || lia).
      rewrite (bytes_at_agree object1 object2 i footer) by
        (lia || (intros k Hk; apply Hagree; lia)).
      destruct (bool_decide (bytes_at object2 i footer = footer));
        [reflexivity |].
      apply IH; lia. }
  now apply (Hloop _ start eq_refl).
Qed.

Lemma FindFooter_reads_window_only_witness :
  let object1 := [0x00; 0xFF; 0xD9; 0x00; 0xFF; 0xD9] in
  let object2 := [0x00; 0xFF; 0xD9; 0x01] in
  let footer := footer FileSignatures.JPEG in
  footer <> [] /\ vsize footer <= 4 < 2 ^ SIZE_BITS
  /\ 4 <= vsize object1 /\ 4 <= vsize object2 /\ 0 <= 0
  /\ (forall k, 0 <= k < 4 - 1 ->
                object1 !! Z.to_nat k = object2 !! Z.to_nat k)
  /\ FindFooter object1 0 4 footer = FindFooter object2 0 4 footer.
Proof.
  intros object1 object2 footer.
  assert (Hne : footer <> []) by discriminate.
  assert (Hfit : vsize footer <= 4 < 2 ^ SIZE_BITS)
    by (split; [vm_compute; discriminate | reflexivity]).
  assert (Hread1 : 4 <= vsize object1) by (vm_compute; discriminate).
  assert (Hread2 : 4 <= vsize object2) by (vm_compute; discriminate).
  assert (Hstart : 0 <= 0) by lia.
  assert (Hagree : forall k, 0 <= k < 4 - 1 ->
            object1 !! Z.to_nat k = object2 !! Z.to_nat k).
  { intros k Hk.
    assert (k = 0 \/ k = 1 \/ k = 2) as [-> | [-> | ->]] by lia;
      reflexivity. }
  repeat (split; [assumption |]).
  exact (FindFooter_reads_window_only object1 object2 0 4 footer
           Hne Hfit Hread1 Hread2 Hstart Hagree).
Defined.

End MatchingLaws.

(** ** The shipped catalogue *)

Section Catalogue.

Abbreviation bytes_at object off signature :=
  (take (length signature) (drop (Z.to_nat off) object)).

Lemma MatchesSignature_true_bytes (object : list Z) off size signature :
  MatchesSignature object off size signature = Ret true ->
  bytes_at object off signature = signature.
Proof.
  unfold MatchesSignature, memcmp_eq.
  destruct (size <? vsize signature); [discriminate |].
  destruct (bool_decide_reflect (vsize signature = 0)) as [Hz | _].
  - intros _. destruct signature; [apply take_0 | discriminate Hz].
  - destruct (bool_decide (0 <= off /\ off + vsize signature <= vsize object));
      [| discriminate].
    intros Hret. injection Hret as Hret.
    now apply bool_decide_eq_true_1 in Hret.
Qed.

(** No default header is the beginning of another one, apart from three
    pairs of signatures whose headers are the same. *)
Lemma default_headers_prefix :
  Forall (fun sig1 =>
    Forall (fun sig2 =>
      header sig1 `prefix_of` header sig2 ->
      header sig1 = header sig2
      /\ (file_type sig1 = file_type sig2
          \/ (file_type sig1, file_type sig2)
             ∈ [("ZIP Archive", "Word Document");
                ("Word Document", "ZIP Archive");
                ("AVI Video", "WAV Audio"); ("WAV Audio", "AVI Video");
                ("Windows Media Video", "Windows Media Audio");
                ("Windows Media Audio", "Windows Media Video")]))
      default_signatures)
    default_signatures.
Proof. apply (bool_decide_unpack _). vm_compute. exact I. Qed.

(** X13: what a header match tells about the type. When the headers of two
    default signatures match at the same position, the two headers are the
    same bytes, and the signatures are the same or one of the three pairs
    ZIP and Word, AVI and WAV, Windows Media video and audio. At most two
    default signatures match at any position. *)
Theorem default_signatures_ambiguity (object : list Z) off size
    (sig1 sig2 : FileSignature) :
  sig1 ∈ default_signatures -> sig2 ∈ default_signatures ->
  MatchesSignature object off size (header sig1) = Ret true ->
  MatchesSignature object off size (header sig2) = Ret true ->
  header sig1 = header sig2
  /\ (file_type sig1 = file_type sig2
      \/ (file_type sig1, file_type sig2)
         ∈ [("ZIP Archive", "Word Document");
            ("Word Document", "ZIP Archive");
            ("AVI Video", "WAV Audio"); ("WAV Audio", "AVI Video");
            ("Windows Media Video", "Windows Media Audio");
            ("Windows Media Audio", "Windows Media Video")]).
Proof.
  intros Hin1 Hin2 Hm1 Hm2.
  apply MatchesSignature_true_bytes in Hm1, Hm2.
  pose proof default_headers_prefix as Htable.
  rewrite Forall_forall in Htable.
  pose proof (Htable sig1 Hin1) as H12. rewrite Forall_forall in H12.
  pose proof (Htable sig2 Hin2) as H21. rewrite Forall_forall in H21.
  destruct (prefix_weak_total (header sig1) (header sig2)
              (drop (Z.to_nat off) object)) as [Hpre | Hpre].
  - rewrite <- Hm1. apply prefix_take.
  - rewrite <- Hm2. apply prefix_take.
  - now apply H12.
  - destruct (H21 sig1 Hin1 Hpre) as [Heq Hnames]. split; [congruence |].
    destruct Hnames as [Hsame | Hpair]; [left; congruence | right].
    rewrite !elem_of_cons, elem_of_nil in Hpair. rewrite !elem_of_cons.
    destruct Hpair as [Hp | [Hp | [Hp | [Hp | [Hp | [Hp | []]]]]]];
      injection Hp as Hp2 Hp1; rewrite Hp1, Hp2; auto 10.
Qed.

Lemma default_signatures_ambiguity_witness :
  let object := [0x50; 0x4B; 0x03; 0x04; 0x14; 0x00] in
  FileSignatures.ZIP ∈ default_signatures
  /\ FileSignatures.DOCX ∈ default_signatures
  /\ MatchesSignature object 0 6 (header FileSignatures.ZIP) = Ret true
  /\ MatchesSignature object 0 6 (header FileSignatures.DOCX) = Ret true
  /\ header FileSignatures.ZIP = header FileSignatures.DOCX
  /\ (file_type FileSignatures.ZIP = file_type FileSignatures.DOCX
      \/ (file_type FileSignatures.ZIP, file_type FileSignatures.DOCX)
         ∈ [("ZIP Archive", "Word Document");
            ("Word Document", "ZIP Archive");
            ("AVI Video", "WAV Audio"); ("WAV Audio", "AVI Video");
            ("Windows Media Video", "Windows Media Audio");
            ("Windows Media Audio", "Windows Media Video")]).
Proof.
  intros object.
  assert (Hin1 : FileSignatures.ZIP ∈ default_signatures)
    by (apply list_elem_of_In; simpl; auto 30).
  assert (Hin2 : FileSignatures.DOCX ∈ default_signatures)
    by (apply list_elem_of_In; simpl; auto 30).
  assert (Hm1 : MatchesSignature object 0 6 (header FileSignatures.ZIP)
                = Ret true) by reflexivity.
  assert (Hm2 : MatchesSignature object 0 6 (header FileSignatures.DOCX)
                = Ret true) by reflexivity.
  repeat (split; [assumption |]).
  exact (default_signatures_ambiguity object 0 6
           FileSignatures.ZIP FileSignatures.DOCX Hin1 Hin2 Hm1 Hm2).
Defined.

(** X14: every signature that [Initialize] registers on a fresh engine is well
    formed: it has a header, the header is shorter than [max_file_size],
    which fits a 64-bit count, and [has_footer] is set exactly when there
    is a footer. *)
Theorem Initialize_registers_well_formed :
  map_Forall (fun _ sig =>
                header sig <> []
                /\ vsize (header sig) < max_file_size sig < 2 ^ SIZE_BITS
                /\ (has_footer sig = true <-> footer sig <> []))
    (signatures_ (Initialize new_engine).2).
Proof.
  assert (Htable :
    Forall (fun sig =>
              header sig <> []
              /\ vsize (header sig) < max_file_size sig < 2 ^ SIZE_BITS
              /\ (has_footer sig = true <-> footer sig <> []))
      default_signatures).
  { apply (bool_decide_unpack _). vm_compute. exact I. }
  rewrite Forall_forall in Htable.
  intros t sig Hlook. cbn [Initialize snd] in Hlook.
  destruct (LoadDefaultSignatures_entries new_engine) as (Hdef & Hother & _).
  destruct (decide (t ∈ (file_type <$> default_signatures))) as [Hin | Hnot].
  - apply list_elem_of_fmap in Hin. destruct Hin as (dsig & -> & Hin).
    rewrite (Hdef dsig Hin) in Hlook. injection Hlook as <-.
    now apply Htable.
  - rewrite (Hother t Hnot) in Hlook. unfold new_engine in Hlook.
    cbn [signatures_] in Hlook. now rewrite lookup_empty in Hlook.
Qed.

End Catalogue.

(** ** The command line *)

Section CommandLine.

Import CLI.

Implicit Types (args argv : list string) (o options : CLIOptions).

(** Membership in a list that is written out. *)
Ltac in_list :=
  repeat first [apply list_elem_of_here | apply list_elem_of_further].

Lemma length_ind {A} (P : list A -> Prop) :
  (forall l, (forall k, (length k < length l)%nat -> P k) -> P l) ->
  forall l, P l.
Proof.
  intros Hstep l. remember (length l) as n eqn:Hn. revert l Hn.
  induction n as [n IH] using lt_wf_ind. intros l ->.
  apply Hstep. intros k Hk. now apply (IH (length k)).
Qed.

Lemma is_option_elim arg a b :
  is_option arg a b = true -> arg = a \/ arg = b.
Proof.
  unfold is_option. rewrite orb_true_iff, !String.eqb_eq. tauto.
Qed.

(** *** An invariant rule for the argument loop

    [all] are the arguments of the command line. A property [I] of the
    options holds after the loop when it holds before and every assignment
    that the arguments can trigger keeps it. *)
Section LoopInvariant.

Variables (I : CLIOptions -> Prop) (all : list string).

Let seen (a b : string) : Prop := a ∈ all \/ b ∈ all.

Hypothesis keep_list_devices :
  seen "-l" "--list-devices" -> forall o, I o -> I (set_list_devices true o).
Hypothesis keep_interactive :
  seen "-i" "--interactive" -> forall o, I o -> I (set_interactive true o).
Hypothesis keep_verbose :
  "--verbose" ∈ all -> forall o, I o -> I (set_verbose true o).
Hypothesis keep_device :
  seen "-d" "--device" ->
  forall v o, v ∈ all -> I o -> I (set_device_path v o).
Hypothesis keep_output :
  seen "-o" "--output" ->
  forall v o, v ∈ all -> I o -> I (set_output_path v o).
Hypothesis keep_mode :
  seen "-m" "--mode" -> forall v o, v ∈ all -> I o -> I (set_mode v o).
Hypothesis keep_type :
  seen "-t" "--type" -> forall v o, v ∈ all -> I o -> I (push_file_type v o).
Hypothesis keep_csv_default :
  "--export-csv" ∈ all ->
  forall o, I o -> I (set_export_path "results.csv" (set_export_csv true o)).
Hypothesis keep_csv_path :
  "--export-csv" ∈ all ->
  forall v o, v ∈ all -> starts_with_dash v = false -> I o ->
              I (set_export_path v (set_export_csv true o)).

Lemma ParseArguments_loop_invariant args o :
  (forall arg, arg ∈ args -> arg ∈ all) -> I o ->
  match ParseArguments_loop args o with
  | Returned ok o' => ok = true /\ I o'
  | Exited _ code =>
      code = 0 /\ (seen "-h" "--help" \/ seen "-v" "--version")
  end.
Proof.
  revert o. induction args as [args IH] using length_ind. intros o Hall Hinv.
  destruct args as [| arg rest]; [now split |].
  assert (Harg : arg ∈ all) by (apply Hall; left).
  assert (Hrest : forall a, a ∈ rest -> a ∈ all)
    by (intros a Ha; apply Hall; now right).
  assert (Hseen : forall a b, is_option arg a b = true -> seen a b).
  { intros a b Hopt. destruct (is_option_elim _ _ _ Hopt) as [<- | <-];
      [now left | now right]. }
  assert (IHrest : forall o', I o' ->
            match ParseArguments_loop rest o' with
            | Returned ok o'' => ok = true /\ I o''
            | Exited _ code =>
                code = 0 /\ (seen "-h" "--help" \/ seen "-v" "--version")
            end).
  { intros o' Ho'. apply IH; [simpl; lia | assumption | assumption]. }
  assert (IHrest' : forall v rest' o', rest = v :: rest' -> I o' ->
            match ParseArguments_loop rest' o' with
            | Returned ok o'' => ok = true /\ I o''
            | Exited _ code =>
                code = 0 /\ (seen "-h" "--help" \/ seen "-v" "--version")
            end).
  { intros v rest' o' -> Ho'. apply IH; [simpl; lia | | assumption].
    intros a Ha. apply Hrest. now right. }
  cbn [ParseArguments_loop].
  destruct (is_option arg "-h" "--help") eqn:Hh; [split; auto |].
  destruct (is_option arg "-v" "--version") eqn:Hv; [split; auto |].
  destruct (is_option arg "-l" "--list-devices") eqn:Hl;
    [apply IHrest; auto |].
  destruct (is_option arg "-i" "--interactive") eqn:Hi;
    [apply IHrest; auto |].
  destruct (arg =? "--verbose")%string eqn:Hverb.
  { apply String.eqb_eq in Hverb. subst arg. apply IHrest; auto. }
  destruct (is_option arg "-d" "--device") eqn:Hd.
  { destruct rest as [| v rest']; [now apply IHrest |].
    apply (IHrest' v); [reflexivity |].
    apply keep_device; auto. apply Hrest. left. }
  destruct (is_option arg "-o" "--output") eqn:Ho.
  { destruct rest as [| v rest']; [now apply IHrest |].
    apply (IHrest' v); [reflexivity |].
    apply keep_output; auto. apply Hrest. left. }
  destruct (is_option arg "-m" "--mode") eqn:Hm.
  { destruct rest as [| v rest']; [now apply IHrest |].
    apply (IHrest' v); [reflexivity |].
    apply keep_mode; auto. apply Hrest. left. }
  destruct (is_option arg "-t" "--type") eqn:Ht.
  { destruct rest as [| v rest']; [now apply IHrest |].
    apply (IHrest' v); [reflexivity |].
    apply keep_type; auto. apply Hrest. left. }
  destruct (arg =? "--export-csv")%string eqn:Hcsv.
  { apply String.eqb_eq in Hcsv. subst arg. cbv zeta.
    destruct rest as [| v rest']; [apply IHrest; auto |].
    destruct (starts_with_dash v) eqn:Hdash; [apply IHrest; auto |].
    apply (IHrest' v); [reflexivity |].
    apply keep_csv_path; auto. apply Hrest. left. }
  now apply IHrest.
Qed.

End LoopInvariant.

(** X15: [ParseArguments] rejects nothing. With fewer than two arguments it
    returns [false] and leaves the options alone; otherwise it returns
    [true], whatever the arguments are, unless a help or version option among
    them ends the process, and then with exit code 0. *)
Theorem ParseArguments_never_fails argv options :
  match ParseArguments argv options with
  | Returned ok options' =>
      ok = negb (Z.of_nat (length argv) <? 2)
      /\ (if ok then True else options' = options)
  | Exited _ code =>
      code = 0 /\ 2 <= Z.of_nat (length argv)
      /\ exists arg, arg ∈ drop 1 argv
                     /\ arg ∈ ["-h"; "--help"; "-v"; "--version"]
  end.
Proof.
  unfold ParseArguments.
  destruct (Z.ltb_spec (Z.of_nat (length argv)) 2) as [Hlt | Hge];
    [now split |].
  pose proof (ParseArguments_loop_invariant (fun _ => True) (drop 1 argv))
    as Hinv.
  specialize (Hinv ltac:(auto) ltac:(auto) ltac:(auto) ltac:(auto)
                   ltac:(auto) ltac:(auto) ltac:(auto) ltac:(auto)
                   ltac:(auto) (drop 1 argv) options ltac:(auto) I).
  destruct (ParseArguments_loop (drop 1 argv) options) as [ok o' | what code].
  - destruct Hinv as [-> _]. now split.
  - destruct Hinv as [-> Hseen]. split; [reflexivity |]. split; [lia |].
    destruct Hseen as [[H | H] | [H | H]]; eexists; (split; [exact H |]);
      in_list.
Qed.

Lemma type_filters_fields ts o :
  let o' := fold_left (fun acc t => push_file_type t acc) ts o in
  file_types o' = (file_types o ++ ts)%list
  /\ device_path o' = device_path o /\ output_path o' = output_path o
  /\ mode o' = mode o /\ list_devices o' = list_devices o
  /\ interactive o' = interactive o.
Proof.
  revert o. induction ts as [| t ts IH]; intros o; simpl.
  - rewrite app_nil_r. repeat split.
  - destruct (IH (push_file_type t o)) as (-> & -> & -> & -> & -> & ->).
    simpl. rewrite <- app_assoc. repeat split.
Qed.

(** X16: file type filters pile up. A run of [-t value] pairs (or
    [--type value]) appends the values to [file_types] in the order given and
    changes nothing else; each value is taken as it is, also when it reads
    like an option. *)
Theorem type_filters_accumulate (flags : list bool) ts rest o :
  length flags = length ts ->
  let args :=
    mjoin (zip_with (fun (long : bool) t =>
                       [if long then "--type" else "-t"; t]) flags ts) in
  let o' := fold_left (fun acc t => push_file_type t acc) ts o in
  ParseArguments_loop (args ++ rest) o = ParseArguments_loop rest o'
  /\ file_types o' = (file_types o ++ ts)%list
  /\ device_path o' = device_path o /\ output_path o' = output_path o
  /\ mode o' = mode o /\ list_devices o' = list_devices o
  /\ interactive o' = interactive o.
Proof.
  intros Hlen args o'. split.
  - subst args o'. revert ts o Hlen.
    induction flags as [| long flags IH]; intros [| t ts] o Hlen;
      try discriminate; [reflexivity |].
    simpl. rewrite <- IH by (simpl in Hlen; lia).
    now destruct long.
  - apply type_filters_fields.
Qed.

Lemma type_filters_accumulate_witness :
  let flags := [false; true] in
  let ts := ["jpeg"; "-h"] in
  length flags = length ts
  /\ ParseArguments_loop (["-t"; "jpeg"; "--type"; "-h"] ++ ["--verbose"])
       initial_options
     = ParseArguments_loop ["--verbose"]
         (fold_left (fun acc t => push_file_type t acc) ts initial_options)
  /\ file_types
       (fold_left (fun acc t => push_file_type t acc) ts initial_options)
     = ([] ++ ts)%list.
Proof.
  intros flags ts.
  assert (Hlen : length flags = length ts) by reflexivity.
  split; [exact Hlen |].
  destruct (type_filters_accumulate flags ts ["--verbose"] initial_options
              Hlen) as (Hparse & Hts & _).
  split; [exact Hparse | exact Hts].
Defined.

(** X17: a command line that names no operation fails. With at least one
    argument, none of them a help, version, list, interactive or mode option,
    [Run] ends in the unknown-mode error (return value 1), whatever device,
    output, type or export options are given. *)
Theorem Run_without_mode argv :
  2 <= Z.of_nat (length argv) ->
  (forall opt,
     opt ∈ ["-h"; "--help"; "-v"; "--version"; "-l"; "--list-devices";
            "-i"; "--interactive"; "-m"; "--mode"] ->
     opt ∉ drop 1 argv) ->
  exists options, Run argv initial_options = UnknownMode options.
Proof.
  intros Hargc Hnone. unfold Run, ParseArguments.
  destruct (Z.ltb_spec (Z.of_nat (length argv)) 2) as [Hlt | _]; [lia |].
  assert (Habsent : forall a b,
            a ∈ ["-h"; "--help"; "-v"; "--version"; "-l"; "--list-devices";
                 "-i"; "--interactive"; "-m"; "--mode"] ->
            b ∈ ["-h"; "--help"; "-v"; "--version"; "-l"; "--list-devices";
                 "-i"; "--interactive"; "-m"; "--mode"] ->
            a ∈ drop 1 argv \/ b ∈ drop 1 argv -> False).
  { intros a b Ha Hb [Hin | Hin]; [now apply (Hnone a) | now apply (Hnone b)]. }
  pose proof (ParseArguments_loop_invariant
                (fun o => list_devices o = false /\ interactive o = false
                          /\ mode o = "")
                (drop 1 argv)) as Hinv.
  cbv zeta in Hinv.
  specialize (Hinv
    ltac:(intros Hs; exfalso; revert Hs; apply Habsent; in_list)
    ltac:(intros Hs; exfalso; revert Hs; apply Habsent; in_list)
    ltac:(auto) ltac:(auto) ltac:(auto)
    ltac:(intros Hs; exfalso; revert Hs; apply Habsent; in_list)
    ltac:(auto) ltac:(auto) ltac:(auto)
    (drop 1 argv) initial_options ltac:(auto) ltac:(repeat split)).
  destruct (ParseArguments_loop (drop 1 argv) initial_options)
    as [ok o' | what code].
  - destruct Hinv as (-> & Hl & Hi & Hm). exists o'.
    now rewrite Hl, Hi, Hm.
  - destruct Hinv as [_ [Hs | Hs]]; exfalso; revert Hs; apply Habsent;
      in_list.
Qed.

Lemma Run_without_mode_witness :
  let argv := ["rsn"; "-d"; "/dev/sda1"; "-o"; "/out"; "--export-csv"] in
  2 <= Z.of_nat (length argv)
  /\ (forall opt,
        opt ∈ ["-h"; "--help"; "-v"; "--version"; "-l"; "--list-devices";
               "-i"; "--interactive"; "-m"; "--mode"] ->
        opt ∉ drop 1 argv)
  /\ exists options, Run argv initial_options = UnknownMode options.
Proof.
  intros argv.
  assert (Hargc : 2 <= Z.of_nat (length argv)) by (vm_compute; discriminate).
  assert (Hnone : forall opt,
            opt ∈ ["-h"; "--help"; "-v"; "--version"; "-l"; "--list-devices";
                   "-i"; "--interactive"; "-m"; "--mode"] ->
            opt ∉ drop 1 argv).
  { intros opt Hopt.
    repeat (apply elem_of_cons in Hopt as [-> | Hopt];
            [apply (bool_decide_unpack _); vm_compute; exact I |]).
    now apply elem_of_nil in Hopt. }
  split; [exact Hargc |]. split; [exact Hnone |].
  exact (Run_without_mode argv Hargc Hnone).
Defined.



(** X19: carve mode from the command line to the engine. For the command
    line of the help text, [--device d --mode carve --output o],
    [Run] hands over to [HandleCarve] with these paths. [HandleCarve] returns
    1 when a path is empty; otherwise it returns 0 and reports all-zero
    stats, whether or not the storage holds anything under the device path,
    and whatever type filters were given. It never changes the storage. *)
Theorem Run_carve (dev out : string) (disk : Storage) options :
  Run ["rsn"; "--device"; dev; "--mode"; "carve"; "--output"; out]
    initial_options
  = Dispatch HandleCarve_
      (mkCLIOptions dev out "carve" [] false false false false "")
  /\ HandleCarve options disk
     = (if str_empty (device_path options) || str_empty (output_path options)
        then (1, None, disk)
        else (0, Some zero_stats, disk)).
Proof.
  split; [reflexivity |].
  unfold HandleCarve.
  now destruct (str_empty (device_path options)
                || str_empty (output_path options)).
Qed.

(** *** The progress bar *)





(** *** The interactive menu *)

Section Menu.

Variable World : Type.
Variables HandleScan HandleRecover HandleCarve_menu :
  CLIOptions -> list string -> World -> list string * World.

(** X24: at the end of the input the menu never returns. Every read gives the
    empty string, which is no valid choice, so the loop goes round without
    starting a handler, however many turns it is given. *)
Theorem HandleInteractive_spins_at_end_of_input fuel options (w : World) :
  HandleInteractive_loop World HandleScan HandleRecover HandleCarve_menu
    fuel options [] w
  = None.
Proof. induction fuel as [| fuel IH]; [reflexivity | exact IH]. Qed.

(** X25: lines that are no menu entry are skipped, and [1] only lists the
    devices. When the input holds such lines and then [5], the menu returns 0
    after one turn per line, with the options and the world as they were and
    the lines after the [5] still unread. *)
Theorem HandleInteractive_exits_on_5 fuel (skipped rest : list string)
    options (w : World) :
  Forall (fun line => line ∉ ["2"; "3"; "4"; "5"]) skipped ->
  (length skipped < fuel)%nat ->
  HandleInteractive_loop World HandleScan HandleRecover HandleCarve_menu
    fuel options (skipped ++ "5" :: rest) w
  = Some (0, options, rest, w).
Proof.
  intros Hskipped. revert fuel.
  induction Hskipped as [| line skipped Hline _ IH]; intros fuel Hfuel;
    (destruct fuel as [| fuel]; [simpl in Hfuel; lia |]).
  - reflexivity.
  - cbn [HandleInteractive_loop app ReadUserInput].
    destruct (line =? "1")%string eqn:H1;
      [apply IH; simpl in Hfuel; lia |].
    assert (Hne : forall c, c ∈ ["2"; "3"; "4"; "5"] ->
                            (line =? c)%string = false).
    { intros c Hc. apply String.eqb_neq. intros ->. contradiction. }
    rewrite !Hne by in_list.
    apply IH. simpl in Hfuel. lia.
Qed.

End Menu.

Lemma HandleInteractive_exits_on_5_witness :
  let idle := fun (_ : CLIOptions) (stdin : list string) (w : unit) =>
                (stdin, w) in
  let skipped := ["1"; "help"; ""] in
  Forall (fun line => line ∉ ["2"; "3"; "4"; "5"]) skipped
  /\ (length skipped < 4)%nat
  /\ HandleInteractive_loop unit idle idle idle 4 initial_options
       (skipped ++ "5" :: ["2"]) tt
     = Some (0, initial_options, ["2"], tt).
Proof.
  intros idle skipped.
  assert (Hskipped : Forall (fun line => line ∉ ["2"; "3"; "4"; "5"]) skipped)
    by (repeat constructor; apply (bool_decide_unpack _); vm_compute;
        exact I).
  assert (Hfuel : (length skipped < 4)%nat) by (simpl; lia).
  split; [exact Hskipped |]. split; [exact Hfuel |].
  exact (HandleInteractive_exits_on_5 unit idle idle idle 4 skipped ["2"]
           initial_options tt Hskipped Hfuel).
Defined.

End CommandLine.

(** ** The device selection dialog *)

Section Dialog.

Import DeviceWizard.

Implicit Types (w : wizard) (events : list event).

Lemma after_snoc events ev :
  after (events ++ [ev]) = handle ev (after events).
Proof. unfold after. now rewrite fold_left_app. Qed.

(** The list and the devices never change once the dialog is built. *)
Lemma dialog_devices events :
  devices_ (after events) = ScanAvailableDevices
  /\ device_list_ (after events) = device_list_ new_wizard.
Proof.
  induction events as [| ev events IH] using rev_ind; [now split |].
  rewrite after_snoc. destruct IH as [Hdev Hlist].
  destruct ev as [| [it |]]; cbn [handle onRefreshDevices onDeviceSelected];
    try (now split).
  destruct ((0 <=? toInt it) && (toInt it <? device_count (after events)));
    [| now split].
  cbn [devices_ device_list_]. unfold UpdateDeviceInfo.
  destruct ((toInt it <? 0) || _); [now split |].
  cbn [devices_ device_list_].
  destruct (devices_ (after events) !! Z.to_nat (toInt it)); now split.
Qed.

Lemma valid_index w index :
  devices_ w = ScanAvailableDevices ->
  (0 <=? index) && (index <? device_count w) = true ->
  index = 0 \/ index = 1 \/ index = 2.
Proof.
  intros Hdev Hvalid. unfold device_count in Hvalid. rewrite Hdev in Hvalid.
  apply andb_true_iff in Hvalid. destruct Hvalid as [H0 H3].
  apply Z.leb_le in H0. apply Z.ltb_lt in H3.
  change (to_int (Z.of_nat (length ScanAvailableDevices))) with 3 in H3. lia.
Qed.

(** X21: the OK button, the selection and the label go together. After any
    sequence of refreshes and clicks, either nothing is selected, the OK
    button is disabled and [GetSelectedDevice] returns the empty string; or
    the OK button is enabled, [GetSelectedDevice] returns the path of a
    scanned device, which is not empty, and the label describes that same
    device. *)
Theorem dialog_selection_invariant events :
  let w := after events in
  (selected_index_ w = -1 /\ btn_ok_enabled w = false
   /\ GetSelectedDevice w = "")
  \/ (exists dev,
        devices_ w !! Z.to_nat (selected_index_ w) = Some dev
        /\ 0 <= selected_index_ w
        /\ btn_ok_enabled w = true
        /\ GetSelectedDevice w = path dev /\ path dev <> ""
        /\ lbl_device_info_ w = InfoOf dev).
Proof.
  induction events as [| ev events IH] using rev_ind; [now left |].
  simpl. rewrite after_snoc.
  destruct (dialog_devices events) as [Hdev _].
  destruct ev as [| [it |]]; cbn [handle onRefreshDevices onDeviceSelected].
  - now left.
  - cbv zeta. generalize (toInt it). intros index.
    destruct ((0 <=? index) && (index <? device_count (after events)))
      eqn:Hvalid; [| exact IH].
    right. destruct (after events) as [items devices sel ok label].
    cbn [devices_] in Hdev. subst devices.
    destruct (valid_index
                (mkWizard items ScanAvailableDevices sel ok label) index
                eq_refl Hvalid) as [-> | [-> | ->]];
      eexists; split_and!; try reflexivity; try lia; discriminate.
  - exact IH.
Qed.

(** X22: clicking a row selects its device. In every state the dialog can be
    in, the list has one item per scanned device, in the same order, and a
    click on an item makes [GetSelectedDevice] return the path of the device
    in that row. A click that comes without an item changes nothing. *)
Theorem dialog_click_selects events :
  let w := after events in
  Forall2 (fun it dev =>
             GetSelectedDevice (onDeviceSelected (Some it) w) = path dev)
    (device_list_ w) (devices_ w)
  /\ onDeviceSelected None w = w.
Proof.
  simpl. split; [| reflexivity].
  destruct (dialog_devices events) as [Hdev Hlist].
  destruct (after events) as [items devices sel ok label].
  cbn [devices_ device_list_] in *. subst items devices.
  repeat constructor.
Qed.

(** X23: a refresh clears the selection and disables the OK button, but it
    does not touch the label: after a click and a refresh the dialog still
    describes the device that is no longer selected. *)
Theorem dialog_refresh_keeps_label events (it : option item) :
  let clicked := after (events ++ [Click it]) in
  let refreshed := after (events ++ [Click it; Refresh]) in
  GetSelectedDevice refreshed = ""
  /\ selected_index_ refreshed = -1
  /\ btn_ok_enabled refreshed = false
  /\ lbl_device_info_ refreshed = lbl_device_info_ clicked.
Proof.
  simpl.
  replace (events ++ [Click it; Refresh])%list
    with ((events ++ [Click it]) ++ [Refresh])%list
    by now rewrite <- app_assoc.
  rewrite (after_snoc (events ++ [Click it])).
  now destruct (after (events ++ [Click it])).
Qed.

End Dialog.
